(** * journey-ai: the journey planner page and the edge request filter

    A shallow embedding of the page component [Home] (waypoint store,
    geocoding batch, bounding box, reordering, terrain toggle) and of the
    two revisions of the request middleware, with the properties the
    specification states about them. *)

From Stdlib Require Import ZArith Lia Bool Ascii String.
From Stdlib Require Import Floats.SpecFloat.
From stdpp Require Import base option list strings gmap pretty.

Local Open Scope Z_scope.

(** ** JavaScript strings

    Strings are modelled by [string], one [ascii] per code unit: the model
    covers the strings whose code units are all below 256 (Latin-1 text),
    which is also exactly what [Headers.get] returns. *)
Module JSString.

Definition LF : ascii := ascii_of_nat 10.

Definition is_LF (c : ascii) : bool := Ascii.eqb c LF.

(** White space and line terminators of the language below U+0100:
    TAB, LF, VT, FF, CR, SP and NBSP. *)
Definition is_white_space (c : ascii) : bool :=
  let n := nat_of_ascii c in
  ((9 <=? n) && (n <=? 13) || (n =? 32) || (n =? 160))%nat.

Definition is_empty (s : string) : bool :=
  match s with EmptyString => true | String _ _ => false end.

(** [Boolean(s)]: a string is truthy when it is not empty. *)
Definition truthy (s : string) : bool := negb (is_empty s).

Fixpoint trimStart (s : string) : string :=
  match s with
  | EmptyString => EmptyString
  | String c s' => if is_white_space c then trimStart s' else s
  end.

Fixpoint trimEnd (s : string) : string :=
  match s with
  | EmptyString => EmptyString
  | String c s' =>
      let t := trimEnd s' in
      if is_empty t && is_white_space c then EmptyString else String c t
  end.

Definition trim (s : string) : string := trimEnd (trimStart s).

(** Prepend a code unit to the first piece of a split. *)
Definition cons_first (c : ascii) (pieces : list string) : list string :=
  match pieces with
  | [] => [String c EmptyString]
  | p :: ps => String c p :: ps
  end.

(** [s.split(/\n+/)]: the pieces between the maximal runs of line feeds;
    [in_run] tells that the previous code unit was a line feed of the
    current run.  An empty string gives one empty piece. *)
Fixpoint split_runs (in_run : bool) (s : string) : list string :=
  match s with
  | EmptyString => [EmptyString]
  | String c s' =>
      if is_LF c then
        if in_run then split_runs true s'
        else EmptyString :: split_runs true s'
      else cons_first c (split_runs false s')
  end.

Definition split_newlines (s : string) : list string := split_runs false s.

(** [s.split(sep)[0]] for a one-unit separator: the part before the first
    separator, the whole string when there is none. *)
Fixpoint before_first (sep : ascii) (s : string) : string :=
  match s with
  | EmptyString => EmptyString
  | String c s' =>
      if Ascii.eqb c sep then EmptyString else String c (before_first sep s')
  end.

Definition hex_digit (n : nat) : ascii :=
  ascii_of_nat (if (n <? 10)%nat then 48 + n else 55 + n).

Definition percent (n : nat) : string :=
  String "%" (String (hex_digit (n / 16)) (String (hex_digit (n mod 16)) EmptyString)).

(** The code units [encodeURIComponent] leaves as they are:
    letters, digits and [- _ . ! ~ * ' ( )]. *)
Definition is_unreserved (c : ascii) : bool :=
  let n := nat_of_ascii c in
  ((65 <=? n) && (n <=? 90) || (97 <=? n) && (n <=? 122)
   || (48 <=? n) && (n <=? 57)
   || (n =? 45) || (n =? 95) || (n =? 46) || (n =? 33) || (n =? 126)
   || (n =? 42) || (n =? 39) || (n =? 40) || (n =? 41))%nat.

(** Every other code unit is written as the percent-escaped bytes of its
    UTF-8 encoding: one byte below U+0080, two bytes from there to U+00FF. *)
Definition encode_unit (c : ascii) : string :=
  let n := nat_of_ascii c in
  if is_unreserved c then String c EmptyString
  else if (n <? 128)%nat then percent n
  else (percent (192 + n / 64) +:+ percent (128 + n mod 64)).

Fixpoint encodeURIComponent (s : string) : string :=
  match s with
  | EmptyString => EmptyString
  | String c s' => encode_unit c +:+ encodeURIComponent s'
  end.

End JSString.

(** ** JavaScript numbers

    A JS number is an IEEE 754 binary64 value.  [spec_float] is the
    Standard Library's specification of these values: signed zeros, signed
    infinities, NaN and finite values [m * 2^e]. *)
Module JSNumber.

Definition number := spec_float.

Definition prec : Z := 53.
Definition emax : Z := 1024.

Definition NaN : number := S754_nan.
Definition Infinity : number := S754_infinity false.

(** [x < y] and [x > y] of the language: false as soon as one side is NaN. *)
Definition lt (x y : number) : bool := SFltb x y.
Definition gt (x y : number) : bool := SFltb y x.
Definition le (x y : number) : bool := SFleb x y.

(** [x == y] on numbers: false as soon as one side is NaN. *)
Definition eq (x y : number) : bool := SFeqb x y.

(** The binary64 value nearest to [m * 2^e] (ties to even). *)
Definition of_scaled (m e : Z) : number := binary_normalize prec emax m e false.
Definition of_Z (m : Z) : number := of_scaled m 0.

Definition neg (x : number) : number := SFopp x.

(** The binary64 value nearest to [m * 10^e], for a natural [m], as the
    reading of a decimal literal produces it: the integer is rounded once
    when [e >= 0], the quotient [m / 10^-e] is rounded once otherwise. *)
Definition of_decimal (m : N) (e : Z) : number :=
  match m with
  | N0 => S754_zero false
  | Npos p =>
      if 0 <=? e then of_Z (Zpos p * 10 ^ e)
      else SFdiv prec emax (S754_finite false p 0)
                           (S754_finite false (Z.to_pos (10 ^ (- e))) 0)
  end.

Definition is_nan (x : number) : bool :=
  match x with S754_nan => true | _ => false end.

(** *** [parseFloat]

    The argument's leading white space is skipped, then the longest prefix
    that is a decimal literal is read: an optional sign, then [Infinity] or
    digits with an optional fraction and an optional exponent.  What
    follows the literal is ignored; with no literal the result is NaN. *)

Definition is_digit (c : ascii) : bool :=
  let n := nat_of_ascii c in ((48 <=? n) && (n <=? 57))%nat.

Definition digit_value (c : ascii) : N := N.of_nat (nat_of_ascii c - 48).

(** The leading decimal digits of [s], read onto [acc]: the value, how
    many digits were read, and the rest of the string. *)
Fixpoint digits (acc : N) (count : nat) (s : string) : N * nat * string :=
  match s with
  | EmptyString => (acc, count, s)
  | String c s' =>
      if is_digit c then digits (10 * acc + digit_value c)%N (S count) s'
      else (acc, count, s)
  end.

Definition sign_of (s : string) : bool * string :=
  match s with
  | String "-" r => (true, r)
  | String "+" r => (false, r)
  | _ => (false, s)
  end.

(** An exponent part counts only when at least one digit follows the
    letter and its optional sign. *)
Definition exponent_part (s : string) : Z :=
  match s with
  | String c r =>
      if Ascii.eqb c "e" || Ascii.eqb c "E" then
        let '(negative, r1) := sign_of r in
        let '(v, n, _) := digits 0 0 r1 in
        match n with
        | O => 0
        | S _ => if negative then - Z.of_N v else Z.of_N v
        end
      else 0
  | EmptyString => 0
  end.

Definition parseFloat (s : string) : number :=
  let '(negative, r) := sign_of (JSString.trimStart s) in
  let signed (x : number) := if negative then neg x else x in
  if String.prefix "Infinity" r then signed Infinity
  else
    let '(int, ni, r1) := digits 0 0 r in
    let '(m, nf, r2) :=
      match r1 with
      | String "." r' => digits int 0 r'
      | _ => (int, O, r1)
      end in
    match (ni + nf)%nat with
    | O => NaN
    | S _ => signed (of_decimal m (exponent_part r2 - Z.of_nat nf))
    end.

End JSNumber.


(** ** JavaScript arrays

    An array is the list of its elements; [None] is [undefined] (an
    element that was never written reads as [undefined] too).  Indices are
    integers, as the callers pass them. *)
Module JSArray.

Section Elements.
Context {A : Type}.

(** [a[i]]: [undefined] outside the elements. *)
Definition get (a : list (option A)) (i : Z) : option A :=
  if i <? 0 then None else default None (a !! Z.to_nat i).

(** [a[i] = v]: inside the elements it replaces one; at or after the
    length it extends the array, the elements in between staying
    unwritten; a negative [i] names a property that is not an element, so
    the elements stay as they are. *)
Definition set (a : list (option A)) (i : Z) (v : option A) : list (option A) :=
  if i <? 0 then a
  else
    let n := Z.to_nat i in
    if (n <? length a)%nat then <[n := v]> a
    else a ++ replicate (n - length a) None ++ [v].

(** [[a[i], a[j]] = [a[j], a[i]]]: the right-hand side is read first, then
    the two targets are written from left to right. *)
Definition swap (a : list (option A)) (i j : Z) : list (option A) :=
  let right := (get a j, get a i) in
  set (set a i (fst right)) j (snd right).

End Elements.

End JSArray.

(** ** The page component [Home] *)
Module Planner.
Import JSString JSNumber.

Local Open Scope string_scope.
Local Open Scope list_scope.
Local Open Scope Z_scope.

(** A waypoint: [{ name, coord: [longitude, latitude] }]. *)
Record Waypoint := { name : string; coord : number * number }.

Definition lon (wp : Waypoint) : number := fst (coord wp).
Definition lat (wp : Waypoint) : number := snd (coord wp).

Record TerrainSpec := { source : string; exaggeration : number }.

(** The first argument of [map.fitBounds]: south-west and north-east
    corners (the second is the constant [{ padding: 50 }]). *)
Record Bounds := { southWest : number * number; northEast : number * number }.

(** What the page observes of the map widget: its terrain setting and the
    calls to [fitBounds], oldest first.  Markers and the route line are
    redrawn from the waypoints and are not part of this model. *)
Record MapWidget := { terrain : option TerrainSpec; fitted : list Bounds }.

(** The state of the page together with what it has shown and requested:
    [alerts] are the calls to [alert], [requests] the URLs given to
    [fetch], [errors] the messages given to [console.error], all oldest
    first.  [map] is [mapRef.current]. *)
Record Page := {
  sceneText : string;
  waypoints : list (option Waypoint);
  terrainEnabled : bool;
  map : option MapWidget;
  alerts : list string;
  requests : list string;
  errors : list string
}.

Definition setSceneText (text : string) (st : Page) : Page :=
  {| sceneText := text; waypoints := waypoints st;
     terrainEnabled := terrainEnabled st; map := map st;
     alerts := alerts st; requests := requests st; errors := errors st |}.

Definition setWaypoints (ws : list (option Waypoint)) (st : Page) : Page :=
  {| sceneText := sceneText st; waypoints := ws;
     terrainEnabled := terrainEnabled st; map := map st;
     alerts := alerts st; requests := requests st; errors := errors st |}.

Definition setTerrainEnabled (b : bool) (st : Page) : Page :=
  {| sceneText := sceneText st; waypoints := waypoints st;
     terrainEnabled := b; map := map st;
     alerts := alerts st; requests := requests st; errors := errors st |}.

Definition setMap (m : option MapWidget) (st : Page) : Page :=
  {| sceneText := sceneText st; waypoints := waypoints st;
     terrainEnabled := terrainEnabled st; map := m;
     alerts := alerts st; requests := requests st; errors := errors st |}.

Definition alert (message : string) (st : Page) : Page :=
  {| sceneText := sceneText st; waypoints := waypoints st;
     terrainEnabled := terrainEnabled st; map := map st;
     alerts := alerts st ++ [message]; requests := requests st;
     errors := errors st |}.

Definition fetch (url : string) (st : Page) : Page :=
  {| sceneText := sceneText st; waypoints := waypoints st;
     terrainEnabled := terrainEnabled st; map := map st;
     alerts := alerts st; requests := requests st ++ [url];
     errors := errors st |}.

Definition console_error (message : string) (st : Page) : Page :=
  {| sceneText := sceneText st; waypoints := waypoints st;
     terrainEnabled := terrainEnabled st; map := map st;
     alerts := alerts st; requests := requests st;
     errors := errors st ++ [message] |}.

Definition setTerrain (t : option TerrainSpec) (m : MapWidget) : MapWidget :=
  {| terrain := t; fitted := fitted m |}.

Definition fitBounds (b : Bounds) (m : MapWidget) : MapWidget :=
  {| terrain := terrain m; fitted := fitted m ++ [b] |}.

(** *** Mounting *)

(** [{ source: 'terrain', exaggeration: 1.5 }] *)
Definition terrain_on : TerrainSpec :=
  {| source := "terrain"; exaggeration := of_scaled 3 (-1) |}.

(** The state when the component is first rendered: no map yet. *)
Definition mounted : Page :=
  {| sceneText := ""; waypoints := []; terrainEnabled := false; map := None;
     alerts := []; requests := []; errors := [] |}.

(** The map as [new maplibregl.Map] builds it: the style it is given has a
    [terrain] entry. *)
Definition created_map : MapWidget :=
  {| terrain := Some terrain_on; fitted := [] |}.

(** The library import resolves and the map is created. *)
Definition mapCreated (st : Page) : Page := setMap (Some created_map) st.

(** *** Clicks on the map *)

Definition clickMap (lng lat : number) (st : Page) : Page :=
  match map st with
  | None => st
  | Some _ =>
      let prev := waypoints st in
      let newName := "Waypoint " +:+ pretty (length prev + 1)%nat in
      setWaypoints (prev ++ [Some {| name := newName; coord := (lng, lat) |}]) st
  end.

(** *** Geocoding *)

(** What the lookup service answers, as far as [geocodeScenes] looks at
    it.  An element of the answered array is an object whose [lat] and
    [lon] properties are strings or absent, or a value that cannot be
    destructured ([null]), for which the engine throws with [message]. *)
Inductive item :=
| Place (lat lon : option string)
| NotDestructurable (message : string).

Inductive json :=
| NotArray
| Array (items : list item).

Inductive body :=
| Unparseable (message : string)
| Parsed (data : json).

Inductive reply :=
| Rejected (message : string)
| Response (ok : bool) (content : body).

(** The network: the reply to the [k]-th request of a batch (from 0), for
    the URL requested. *)
Definition network := nat -> string -> reply.

(** [parseFloat(v)] for a property that is a string or absent: the
    argument is first turned into a string. *)
Definition parseFloat_property (v : option string) : number :=
  parseFloat (default "undefined" v).

Definition search_url (name : string) : string :=
  "https://nominatim.openstreetmap.org/search?q=" +:+ encodeURIComponent name
  +:+ "&format=json&limit=1".

(** The names of the batch. *)
Definition scene_names (text : string) : list string :=
  List.filter truthy (List.map trim (split_newlines text)).

(** The [catch] block. *)
Definition catch (name message : string) (st : Page) : Page :=
  alert ("Error geocoding " +:+ name +:+ ": " +:+ message)
        (console_error message st).

(** One turn of the loop: the page and [newWaypoints] before and after. *)
Definition lookup (net : network) (k : nat) (name : string)
    (acc : Page * list Waypoint) : Page * list Waypoint :=
  let '(st, newWaypoints) := acc in
  let url := search_url name in
  let st := fetch url st in
  match net k url with
  | Rejected message => (catch name message st, newWaypoints)
  | Response false _ =>
      (catch name ("Geocoding failed for " +:+ name) st, newWaypoints)
  | Response true (Unparseable message) =>
      (catch name message st, newWaypoints)
  | Response true (Parsed (Array (Place lat lon :: _))) =>
      (st, newWaypoints ++
           [{| name := name;
               coord := (parseFloat_property lon, parseFloat_property lat) |}])
  | Response true (Parsed (Array (NotDestructurable message :: _))) =>
      (catch name message st, newWaypoints)
  | Response true (Parsed _) =>
      (alert ("Could not find location: " +:+ name) st, newWaypoints)
  end.

Fixpoint lookups (net : network) (k : nat) (names : list string)
    (acc : Page * list Waypoint) : Page * list Waypoint :=
  match names with
  | [] => acc
  | name :: rest => lookups net (S k) rest (lookup net k name acc)
  end.

(** The bounding box of the new waypoints. *)
Record Box := { minLon : number; maxLon : number; minLat : number; maxLat : number }.

Definition widen (b : Box) (wp : Waypoint) : Box :=
  let '(lon, lat) := coord wp in
  {| minLon := if lt lon (minLon b) then lon else minLon b;
     maxLon := if gt lon (maxLon b) then lon else maxLon b;
     minLat := if lt lat (minLat b) then lat else minLat b;
     maxLat := if gt lat (maxLat b) then lat else maxLat b |}.

Definition bounding_box (first : Waypoint) (all : list Waypoint) : Box :=
  fold_left widen all
    {| minLon := lon first; maxLon := lon first;
       minLat := lat first; maxLat := lat first |}.

Definition bounds_of (b : Box) : Bounds :=
  {| southWest := (minLon b, minLat b); northEast := (maxLon b, maxLat b) |}.

Definition empty_notice : string :=
  "Please enter one or more scene names to geocode.".

Definition geocodeScenes (net : network) (st : Page) : Page :=
  let names := scene_names (sceneText st) in
  match names with
  | [] => alert empty_notice st
  | _ :: _ =>
      let '(st, newWaypoints) := lookups net 0 names (st, []) in
      match newWaypoints with
      | [] => st
      | first :: _ =>
          let st := setWaypoints (Some <$> newWaypoints) st in
          match map st with
          | None => st
          | Some m =>
              setMap (Some (fitBounds (bounds_of (bounding_box first newWaypoints)) m)) st
          end
      end
  end.

(** *** Reordering, clearing, terrain *)

Definition moveWaypoint (index direction : Z) (st : Page) : Page :=
  let prev := waypoints st in
  let newIndex := index + direction in
  if (newIndex <? 0) || (newIndex >=? Z.of_nat (length prev)) then st
  else setWaypoints (JSArray.swap prev index newIndex) st.

Definition clearRoute (st : Page) : Page := setWaypoints [] st.

Definition toggleTerrain (st : Page) : Page :=
  match map st with
  | None => st
  | Some m =>
      let m :=
        if terrainEnabled st then setTerrain None m
        else setTerrain (Some terrain_on) m in
      setTerrainEnabled (negb (terrainEnabled st)) (setMap (Some m) st)
  end.

(** The three waypoints of the component's self-check. *)
Definition sample : list (option Waypoint) :=
  [Some {| name := "A"; coord := (of_Z 0, of_Z 0) |};
   Some {| name := "B"; coord := (of_Z 1, of_Z 1) |};
   Some {| name := "C"; coord := (of_Z 2, of_Z 2) |}].

(** Two texts for the scene box: two names around a blank line, and
    nothing but blanks. *)
Definition two_lines : string :=
  "Eiffel Tower" +:+ String LF (String LF "Louvre Museum").

Definition blank_lines : string :=
  "  " +:+ String LF (String LF " ").

(** Two answers of the service: one place, and no place. *)
Definition found_at (lat lon : string) : reply :=
  Response true (Parsed (Array [Place (Some lat) (Some lon)])).

Definition nothing_found : reply := Response true (Parsed (Array [])).

(** Three networks: one that finds the first name of a batch and no
    other, one that finds nothing, one whose answers are not coordinates. *)
Definition first_only : network :=
  fun k _ => match k with O => found_at "48.8566" "2.3522" | S _ => nothing_found end.

Definition finds_nothing : network := fun _ _ => nothing_found.

Definition malformed : network := fun _ _ => found_at "abc" "200".

(** *** What the user and the network can do to the page *)

Inductive event :=
| MapCreated
| Typed (text : string)
| Clicked (lng lat : number)
| GeocodePressed (net : network)
| MovePressed (index direction : Z)
| ClearPressed
| TerrainPressed.

Definition step (st : Page) (ev : event) : Page :=
  match ev with
  | MapCreated => mapCreated st
  | Typed text => setSceneText text st
  | Clicked lng lat => clickMap lng lat st
  | GeocodePressed net => geocodeScenes net st
  | MovePressed index direction => moveWaypoint index direction st
  | ClearPressed => clearRoute st
  | TerrainPressed => toggleTerrain st
  end.

Definition run (events : list event) : Page := fold_left step events mounted.

(** *** Vocabulary of the statements *)

(** Longitude in [-180, 180] and latitude in [-90, 90]; NaN and the
    infinities are outside. *)
Definition coord_in_range (c : number * number) : bool :=
  le (of_Z (-180)) (fst c) && le (fst c) (of_Z 180)
  && le (of_Z (-90)) (snd c) && le (snd c) (of_Z 90).

Definition store_in_range (st : Page) : Prop :=
  forall wp, Some wp ∈ waypoints st -> coord_in_range (coord wp) = true.

(** The coordinates an event brings to the page are in range. *)
Definition input_in_range (ev : event) : Prop :=
  match ev with
  | Clicked lng lat => coord_in_range (lng, lat) = true
  | GeocodePressed net =>
      forall k url lat lon others,
        net k url = Response true (Parsed (Array (Place lat lon :: others))) ->
        coord_in_range (parseFloat_property lon, parseFloat_property lat) = true
  | _ => True
  end.

(** A lookup succeeds when the service answers with success and a
    non-empty array whose first element can be read. *)
Definition succeeds (net : network) (k : nat) (name : string) : bool :=
  match net k (search_url name) with
  | Response true (Parsed (Array (Place _ _ :: _))) => true
  | _ => false
  end.

(** The names of a batch that succeed, and those that fail, in input
    order; [k] is the position of the first name in the batch. *)
Fixpoint succeeded (net : network) (k : nat) (names : list string) : list string :=
  match names with
  | [] => []
  | name :: rest =>
      if succeeds net k name then name :: succeeded net (S k) rest
      else succeeded net (S k) rest
  end.

Fixpoint failed (net : network) (k : nat) (names : list string) : list string :=
  match names with
  | [] => []
  | name :: rest =>
      if succeeds net k name then failed net (S k) rest
      else name :: failed net (S k) rest
  end.

(** The notice names the place. *)
Definition mentions (notice place : string) : Prop :=
  exists before after, notice = before +:+ place +:+ after.

(** The names as the specification words them: one per line, trimmed,
    blank lines dropped. *)
Fixpoint lines (s : string) : list string :=
  match s with
  | EmptyString => [EmptyString]
  | String c s' =>
      if is_LF c then EmptyString :: lines s' else cons_first c (lines s')
  end.

Definition spec_names (text : string) : list string :=
  List.filter (fun line => negb (String.eqb line "")) (List.map trim (lines text)).

(** [m] is a least (greatest) element of [xs] for the order of the
    numbers. *)
Definition is_minimum (m : number) (xs : list number) : Prop :=
  m ∈ xs /\ forall x, x ∈ xs -> le m x = true.

Definition is_maximum (m : number) (xs : list number) : Prop :=
  m ∈ xs /\ forall x, x ∈ xs -> le x m = true.

Definition no_nan (xs : list number) : Prop :=
  forall x, x ∈ xs -> is_nan x = false.

(** The flag and the map agree on whether terrain is on. *)
Definition terrain_consistent (st : Page) : Prop :=
  match map st with
  | None => True
  | Some m => terrain m = if terrainEnabled st then Some terrain_on else None
  end.

Definition map_terrain (st : Page) : option (option TerrainSpec) :=
  terrain <$> map st.

End Planner.

(** ** The edge request filter *)
Module EdgeFilter.
Import JSString.

Local Open Scope string_scope.

(** A request, as far as the filter reads it: its headers, by lower-case
    name.  [None] stands for [null] and [undefined]. *)
Record NextRequest := { headers : gmap string string }.

Definition headers_get (req : NextRequest) (name : string) : option string :=
  headers req !! name.

(** What a middleware can answer.  [NextResponse.next()] lets the request
    go on to its route; [request_override] are the request headers it is
    asked to replace, none when it is called without argument. *)
Inductive kind :=
| Continue
| Rewrite (url : string)
| Redirect (url : string)
| Respond (status : Z).

Record NextResponse := {
  action : kind;
  request_override : option (gmap string string);
  response_headers : list (string * string)
}.

Definition next : NextResponse :=
  {| action := Continue; request_override := None; response_headers := [] |}.

(** A computation returns or throws. *)
Inductive outcome (A : Type) :=
| Returned (value : A)
| Thrown (message : string).
Arguments Returned {A} value.
Arguments Thrown {A} message.

Definition try_catch {A} (block : outcome A) (handler : string -> outcome A) : outcome A :=
  match block with
  | Returned value => Returned value
  | Thrown message => handler message
  end.

(** What follows a call that may throw. *)
Definition and_then {A B} (first : outcome A) (rest : A -> outcome B) : outcome B :=
  match first with
  | Returned value => rest value
  | Thrown message => Thrown message
  end.

(** [res.headers.set(name, value)], as the Fetch standard has it for a
    valid name: the value loses the HTTP white space (TAB, LF, CR, SP) at
    its two ends; if a NUL, LF or CR is left in it the call throws a
    [TypeError], otherwise the header replaces the ones of that name.
    (A code unit above U+00FF makes the call throw too; the strings of
    this model have none.)  The text of the engine's message is not
    modelled. *)
Definition is_http_whitespace (c : ascii) : bool :=
  let n := nat_of_ascii c in ((n =? 9) || (n =? 10) || (n =? 13) || (n =? 32))%nat.

Definition is_forbidden (c : ascii) : bool :=
  let n := nat_of_ascii c in ((n =? 0) || (n =? 10) || (n =? 13))%nat.

Fixpoint strip_start (s : string) : string :=
  match s with
  | EmptyString => EmptyString
  | String c s' => if is_http_whitespace c then strip_start s' else s
  end.

Fixpoint strip_end (s : string) : string :=
  match s with
  | EmptyString => EmptyString
  | String c s' =>
      let t := strip_end s' in
      if is_empty t && is_http_whitespace c then EmptyString else String c t
  end.

Definition normalize (value : string) : string := strip_end (strip_start value).

Fixpoint has_forbidden (s : string) : bool :=
  match s with
  | EmptyString => false
  | String c s' => is_forbidden c || has_forbidden s'
  end.

Definition legal_value (value : string) : bool := negb (has_forbidden (normalize value)).

Definition type_error : string := "TypeError".

Definition headers_set (name value : string) (res : NextResponse) : outcome NextResponse :=
  if legal_value value then
    Returned
      {| action := action res; request_override := request_override res;
         response_headers :=
           List.filter (fun h => negb (String.eqb (fst h) name)) (response_headers res)
           ++ [(name, normalize value)] |}
  else Thrown type_error.

(** A call of [NextResponse.next()]: [faults n] is the message of the
    error that the [n]-th call of a run (from 0) raises, [None] when
    that call returns. *)
Definition next_call (faults : nat -> option string) (n : nat) : outcome NextResponse :=
  match faults n with
  | None => Returned next
  | Some message => Thrown message
  end.

(** [a || b] on strings that may be missing. *)
Definition or_else (a b : option string) : option string :=
  match a with
  | Some s => if truthy s then a else b
  | None => b
  end.

(** *** src/middleware.ts *)
Module Guarded.

(** The first call of [NextResponse.next()] is guarded.  The handler
    calls it again and then sets a response header to the message, both
    outside any guard: an error of either leaves the function. *)
Definition middleware (faults : nat -> option string) (_req : NextRequest)
    : outcome NextResponse :=
  try_catch (next_call faults 0)
    (fun message =>
       and_then (next_call faults 1)
         (fun res => headers_set "x-middleware-error" message res)).

End Guarded.

(** *** The revision that reads the client's address and place *)
Module ClientInfo.

Record Geo := {
  city : option string;
  country : option string;
  region : option string;
  latitude : option string;
  longitude : option string
}.

Record Info := { ip : option string; geo : Geo }.

Definition getClientInfo (req : NextRequest) : Info :=
  {| ip :=
       or_else
         (or_else
            (trim <$> (before_first "," <$> headers_get req "x-forwarded-for"))
            (headers_get req "x-real-ip"))
         None;
     geo :=
       {| city := or_else (headers_get req "x-vercel-ip-city") None;
          country := or_else (headers_get req "x-vercel-ip-country") None;
          region := or_else (headers_get req "x-vercel-ip-country-region") None;
          latitude := or_else (headers_get req "x-vercel-ip-latitude") None;
          longitude := or_else (headers_get req "x-vercel-ip-longitude") None |} |}.

(** No guard here: the one call of [NextResponse.next()] decides. *)
Definition middleware (faults : nat -> option string) (req : NextRequest)
    : outcome NextResponse :=
  let '{| ip := _; geo := _ |} := getClientInfo req in
  next_call faults 0.

End ClientInfo.

(** Two requests: one with a forwarded-for list, one whose list starts
    with an empty entry. *)
Definition via_proxies : NextRequest :=
  {| headers := {[ "x-forwarded-for" := " 203.0.113.7 , 10.0.0.1";
                   "x-real-ip" := "10.0.0.1" ]} |}.

Definition empty_first_entry : NextRequest :=
  {| headers := {[ "x-forwarded-for" := ",1.2.3.4"; "x-real-ip" := "9.9.9.9" ]} |}.

(** Three runs of faults: the first call fails once with a message
    that is a legal header value; it fails with a message of two lines;
    every call fails. *)
Definition once_failing : nat -> option string :=
  fun n => match n with O => Some " boom " | S _ => None end.

Definition two_lines_fault : nat -> option string :=
  fun n => match n with
           | O => Some ("first" +:+ String (ascii_of_nat 10) "second")
           | S _ => None
           end.

Definition always_failing : nat -> option string := fun _ => Some "down".

(** The request goes on to its route as it came. *)
Definition forwards_unchanged (o : outcome NextResponse) : Prop :=
  exists res, o = Returned res /\ action res = Continue /\ request_override res = None.

End EdgeFilter.

(** ** The list under the map *)
Module Listing.
Import JSString JSNumber Planner.

Local Open Scope string_scope.
Local Open Scope list_scope.
Local Open Scope Z_scope.

(** One row of the list: the position shown before the name, the name,
    and whether each of its two buttons is disabled.  The text of the
    coordinates ([toFixed(4)]) is left out of the row. *)
Record Row := {
  ordinal : string;
  title : string;
  upDisabled : bool;
  downDisabled : bool
}.

(** [waypoints.map((wp, index) => ...)] on a Store whose elements are
    all waypoints. *)
Definition rows (ws : list Waypoint) : list Row :=
  imap (fun index wp =>
          {| ordinal := pretty (index + 1)%nat;
             title := name wp;
             upDisabled := Z.of_nat index =? 0;
             downDisabled := Z.of_nat index =? Z.of_nat (length ws) - 1 |}) ws.

(** The handlers of the two buttons of the row at [index]. *)
Definition pressUp (index : nat) (st : Page) : Page :=
  moveWaypoint (Z.of_nat index) (-1) st.

Definition pressDown (index : nat) (st : Page) : Page :=
  moveWaypoint (Z.of_nat index) 1 st.

(** Pressing the down button of a waypoint again and again, following it:
    [times] presses starting from the row at [index]. *)
Fixpoint carryDown (index times : nat) (st : Page) : Page :=
  match times with
  | O => st
  | S n => carryDown (S index) n (pressDown index st)
  end.

(** Every element of the Store is a waypoint. *)
Definition all_defined (st : Page) : Prop :=
  forall slot, slot ∈ waypoints st -> slot <> None.

(** What the page's own controls can send: the buttons of a row exist
    only for the positions of the Store and move by one. *)
Definition from_controls (st : Page) (ev : event) : Prop :=
  match ev with
  | MovePressed index direction =>
      0 <= index < Z.of_nat (length (waypoints st))
      /\ (direction = -1 \/ direction = 1)
  | _ => True
  end.

Inductive reachable : Page -> Prop :=
| reachable_mounted : reachable mounted
| reachable_step (st : Page) (ev : event) :
    reachable st -> from_controls st ev -> reachable (step st ev).

(** A sequence of clicks on the map. *)
Definition clicks (places : list (number * number)) (st : Page) : Page :=
  fold_left (fun st place => clickMap (fst place) (snd place) st) places st.

End Listing.

(** ** Drawing the waypoints on the map *)
Module Render.
Import JSString JSNumber Planner.

Local Open Scope string_scope.
Local Open Scope list_scope.

(** A marker object: [serial] tells the objects apart (they are compared
    by identity), [text] is the text of its element, [lngLat] where it
    is set. *)
Record Marker := { serial : nat; text : string; lngLat : number * number }.

(** What is drawn on the map: the markers added to it, oldest first, and
    the coordinates of the [route] source, [None] until the source is
    added. *)
Record Canvas := { attached : list Marker; route : option (list (number * number)) }.

(** [maplibre] tells that [maplibreRef.current] is set, [canvas] is
    [mapRef.current], [made] counts the marker objects constructed. *)
Record View := {
  maplibre : bool;
  canvas : option Canvas;
  markersRef : list Marker;
  made : nat
}.

Definition initial : View :=
  {| maplibre := false; canvas := None; markersRef := []; made := 0 |}.

(** The import resolves: the library is kept and the map is created. *)
Definition imported (v : View) : View :=
  {| maplibre := true;
     canvas := Some {| attached := []; route := None |};
     markersRef := markersRef v; made := made v |}.

(** The map's [load] event: the [route] source is added, empty. *)
Definition loaded (v : View) : View :=
  match canvas v with
  | None => v
  | Some c =>
      {| maplibre := maplibre v;
         canvas := Some {| attached := attached c; route := Some [] |};
         markersRef := markersRef v; made := made v |}
  end.

(** [marker.remove()] *)
Definition remove (c : Canvas) (marker : Marker) : Canvas :=
  {| attached :=
       List.filter (fun other => negb (serial other =? serial marker)%nat) (attached c);
     route := route c |}.

(** [routeSource.setData(...)], when [map.getSource('route')] is there. *)
Definition setData (coordinates : list (number * number)) (c : Canvas) : Canvas :=
  match route c with
  | None => c
  | Some _ => {| attached := attached c; route := Some coordinates |}
  end.

(** The loop over the waypoints, from position [index]: a marker is
    constructed, set at the waypoint's coordinate, added to the map and
    pushed on [markersRef].  [accepts] tells whether the library takes a
    coordinate; when [setLngLat] throws the loop ends there, the marker
    just constructed being neither added nor pushed.  The last component
    tells that the loop came to its end. *)
Fixpoint place (accepts : number * number -> bool) (index : nat) (ws : list Waypoint)
    (c : Canvas) (ref : list Marker) (count : nat) : Canvas * list Marker * nat * bool :=
  match ws with
  | [] => (c, ref, count, true)
  | wp :: rest =>
      let marker :=
        {| serial := count; text := pretty (index + 1)%nat; lngLat := coord wp |} in
      if accepts (coord wp) then
        place accepts (S index) rest
          {| attached := attached c ++ [marker]; route := route c |}
          (ref ++ [marker]) (S count)
      else (c, ref, S count, false)
  end.

(** The effect run when the waypoints change, on a Store whose elements
    are all waypoints; the boolean tells that it ran to its end. *)
Definition renderEffect (accepts : number * number -> bool) (ws : list Waypoint)
    (v : View) : View * bool :=
  match canvas v with
  | None => (v, true)
  | Some c =>
      let c := fold_left remove (markersRef v) c in
      if maplibre v then
        let '(c, ref, count, done) := place accepts 0 ws c [] (made v) in
        if done then
          ({| maplibre := true; canvas := Some (setData (coord <$> ws) c);
              markersRef := ref; made := count |}, true)
        else
          ({| maplibre := true; canvas := Some c;
              markersRef := ref; made := count |}, false)
      else
        ({| maplibre := false; canvas := Some (setData (coord <$> ws) c);
            markersRef := []; made := made v |}, true)
  end.

(** What happens to the view once the map is there. *)
Inductive change :=
| Loaded
| Rendered (ws : list Waypoint).

Definition apply (accepts : number * number -> bool) (v : View) (ch : change) : View :=
  match ch with
  | Loaded => loaded v
  | Rendered ws => fst (renderEffect accepts ws v)
  end.

(** Every marker on the map is one the page still holds. *)
Definition tracked (v : View) : Prop :=
  match canvas v with
  | None => True
  | Some c => attached c = markersRef v
  end.

End Render.

(** ** Mounting and unmounting *)
Module Mounting.
Import Planner.









End Mounting.

(** ** More vocabulary *)
Module Words.
Import JSString JSNumber Planner.

Local Open Scope string_scope.
Local Open Scope list_scope.

(** Whether a code unit satisfying [p] occurs in [s]. *)
Fixpoint any_unit (p : ascii -> bool) (s : string) : bool :=
  match s with
  | EmptyString => false
  | String c s' => p c || any_unit p s'
  end.

(** The code units an encoded URL component is made of. *)
Definition plain (c : ascii) : bool := is_unreserved c || Ascii.eqb c "%".

(** A name as the batch keeps them: not empty, nothing to trim, on one
    line. *)
Definition clean (name : string) : Prop :=
  truthy name = true /\ trim name = name /\ any_unit is_LF name = false.

(** The text with one name per line. *)
Fixpoint join_lines (names : list string) : string :=
  match names with
  | [] => ""
  | [name] => name
  | name :: rest => name +:+ String LF (join_lines rest)
  end.

(** A lookup that ends in the [catch] block. *)
Definition throws (net : network) (k : nat) (name : string) : bool :=
  match net k (search_url name) with
  | Rejected _ => true
  | Response false _ => true
  | Response true (Unparseable _) => true
  | Response true (Parsed (Array (NotDestructurable _ :: _))) => true
  | Response true (Parsed _) => false
  end.

Fixpoint thrown (net : network) (k : nat) (names : list string) : list string :=
  match names with
  | [] => []
  | name :: rest =>
      if throws net k name then name :: thrown net (S k) rest
      else thrown net (S k) rest
  end.

(** The box holds the point. *)
Definition inside (b : Bounds) (c : number * number) : Prop :=
  le (fst (southWest b)) (fst c) = true /\ le (fst c) (fst (northEast b)) = true
  /\ le (snd (southWest b)) (snd c) = true /\ le (snd c) (snd (northEast b)) = true.

(** The waypoints a batch makes: for each name whose lookup succeeds,
    in input order, the name at the parse of the first result of its own
    reply; [k] is the position of the first name in the batch. *)
Fixpoint resolved (net : network) (k : nat) (names : list string) : list Waypoint :=
  match names with
  | [] => []
  | name :: rest =>
      match net k (search_url name) with
      | Response true (Parsed (Array (Place lat lon :: _))) =>
          {| name := name;
             coord := (parseFloat_property lon, parseFloat_property lat) |}
          :: resolved net (S k) rest
      | _ => resolved net (S k) rest
      end
  end.

(** White space, by its code units: TAB, LF, VT, FF, CR, SP, NBSP. *)
Definition blank (c : ascii) : bool :=
  existsb (Nat.eqb (nat_of_ascii c)) [9; 10; 11; 12; 13; 32; 160]%nat.

Fixpoint all_blank (s : string) : bool :=
  match s with
  | EmptyString => true
  | String c s' => blank c && all_blank s'
  end.

Fixpoint last_unit (s : string) : option ascii :=
  match s with
  | EmptyString => None
  | String c s' => match last_unit s' with Some d => Some d | None => Some c end
  end.

(** [name] is [line] without the white space at its two ends: it is not
    empty, begins and ends with a code unit that is not white space, and
    [line] is [name] between two runs of white space. *)
Definition stripped (line name : string) : Prop :=
  (exists before after,
      line = before +:+ name +:+ after
      /\ all_blank before = true /\ all_blank after = true)
  /\ (exists c rest, name = String c rest /\ blank c = false)
  /\ (exists d, last_unit name = Some d /\ blank d = false).

(** A line with something else than white space on it. *)
Definition has_ink (line : string) : bool := negb (all_blank line).

End Words.

(** ** The batch as a process

    [geocodeScenes] is an [async] function: [fetch(url)] sends a request
    and gives a promise, [await] suspends the function until the promise
    is settled.  A process tells which of the two comes next. *)
Module Async.
Import JSString JSNumber Planner.

Local Open Scope string_scope.
Local Open Scope list_scope.

Inductive proc :=
| Finished (st : Page)
| Fetch (url : string) (next : nat -> proc)
| Await (promise : nat) (next : reply -> proc).

(** What the network sees, in time order. *)
Inductive io :=
| Sent (url : string)
| Received (promise : nat) (answer : reply).

(** The body of the loop after the [await]: what is done with the reply
    (the [await] on the body of the response is taken together with the
    one on the response). *)
Definition settle (name : string) (answer : reply)
    (acc : Page * list Waypoint) : Page * list Waypoint :=
  let '(st, newWaypoints) := acc in
  match answer with
  | Rejected message => (catch name message st, newWaypoints)
  | Response false _ =>
      (catch name ("Geocoding failed for " +:+ name) st, newWaypoints)
  | Response true (Unparseable message) =>
      (catch name message st, newWaypoints)
  | Response true (Parsed (Array (Place lat lon :: _))) =>
      (st, newWaypoints ++
           [{| name := name;
               coord := (parseFloat_property lon, parseFloat_property lat) |}])
  | Response true (Parsed (Array (NotDestructurable message :: _))) =>
      (catch name message st, newWaypoints)
  | Response true (Parsed _) =>
      (alert ("Could not find location: " +:+ name) st, newWaypoints)
  end.

(** What follows the loop. *)
Definition conclude (acc : Page * list Waypoint) : Page :=
  let '(st, newWaypoints) := acc in
  match newWaypoints with
  | [] => st
  | first :: _ =>
      let st := setWaypoints (Some <$> newWaypoints) st in
      match map st with
      | None => st
      | Some m =>
          setMap (Some (fitBounds (bounds_of (bounding_box first newWaypoints)) m)) st
      end
  end.

(** The loop: for each name the request is sent, then the function
    waits for its reply, then the reply is dealt with. *)
Fixpoint turns (names : list string) (acc : Page * list Waypoint) : proc :=
  match names with
  | [] => Finished (conclude acc)
  | name :: rest =>
      let url := search_url name in
      Fetch url (fun promise =>
        Await promise (fun answer =>
          turns rest (settle name answer (fetch url (fst acc), snd acc))))
  end.

Definition geocodeScenes (st : Page) : proc :=
  match scene_names (sceneText st) with
  | [] => Finished (alert empty_notice st)
  | names => turns names (st, [])
  end.

(** Running a process against the network: [sent] are the URLs of the
    requests sent so far, a promise being the rank of its request; the
    reply to request [k] for [url] is [net k url].  Waiting for a promise
    that no request gave has no meaning. *)
Fixpoint perform (net : network) (p : proc) (sent : list string) (trace : list io)
    : option (Page * list io) :=
  match p with
  | Finished st => Some (st, trace)
  | Fetch url next =>
      perform net (next (length sent)) (sent ++ [url]) (trace ++ [Sent url])
  | Await promise next =>
      match sent !! promise with
      | None => None
      | Some url =>
          let answer := net promise url in
          perform net (next answer) sent (trace ++ [Received promise answer])
      end
  end.

(** A trace in which no request is sent while another is waiting for its
    reply: [waiting] is the promise not yet settled, [rank] the rank of
    the next request. *)
Fixpoint in_turn (waiting : option nat) (rank : nat) (trace : list io) : bool :=
  match trace with
  | [] => match waiting with None => true | Some _ => false end
  | Sent _ :: rest =>
      match waiting with
      | None => in_turn (Some rank) (S rank) rest
      | Some _ => false
      end
  | Received promise _ :: rest =>
      match waiting with
      | Some p => (p =? promise)%nat && in_turn None rank rest
      | None => false
      end
  end.

Definition sequential (trace : list io) : Prop := in_turn None 0 trace = true.

(** The trace of lookups made one after the other. *)
Fixpoint one_by_one (net : network) (k : nat) (names : list string) : list io :=
  match names with
  | [] => []
  | name :: rest =>
      Sent (search_url name) :: Received k (net k (search_url name))
      :: one_by_one net (S k) rest
  end.

(** For comparison, a process that sends two requests before it waits
    for either. *)
Definition both_at_once (url1 url2 : string) (st : Page) : proc :=
  Fetch url1 (fun p1 => Fetch url2 (fun p2 =>
    Await p1 (fun _ => Await p2 (fun _ => Finished st)))).

End Async.

(** * Properties *)

(** ** The order of the numbers *)
Module NumberOrder.
Import JSNumber.

Lemma compare_cont_Eq (p q : positive) : Pos.compare_cont Eq p q = (p ?= q)%positive.
Proof. reflexivity. Qed.

Ltac order_cases :=
  repeat match goal with
  | |- context [Pos.compare_cont Eq ?a ?b] =>
      change (Pos.compare_cont Eq a b) with (a ?= b)%positive; cbn
  | H : context [Pos.compare_cont Eq ?a ?b] |- _ =>
      change (Pos.compare_cont Eq a b) with (a ?= b)%positive in H; cbn in H
  | |- context [(?a ?= ?b)%Z] => destruct (Z.compare_spec a b)
  | |- context [(?a ?= ?b)%positive] => destruct (Pos.compare_spec a b)
  | H : context [(?a ?= ?b)%Z] |- _ => destruct (Z.compare_spec a b)
  | H : context [(?a ?= ?b)%positive] |- _ => destruct (Pos.compare_spec a b)
  end; cbn in *.

Ltac by_cases x :=
  destruct x as [[]|[]| |[] ? ?]; cbn in *; try discriminate; try reflexivity.

Lemma le_refl (x : number) : is_nan x = false -> le x x = true.
Proof.
  unfold le, SFleb, SFcompare.
  by_cases x; intros _; rewrite ?compare_cont_Eq, Z.compare_refl, Pos.compare_refl;
    reflexivity.
Qed.

(** Two numbers that are not NaN are comparable. *)
Lemma not_lt_le (x y : number) :
  is_nan x = false -> is_nan y = false -> lt x y = false -> le y x = true.
Proof.
  unfold lt, le, SFltb, SFleb, SFcompare.
  by_cases x; by_cases y; intros _ _; rewrite ?compare_cont_Eq;
    order_cases; cbn; intros; try reflexivity; try discriminate; lia.
Qed.

Lemma lt_le (x y : number) : lt x y = true -> le x y = true.
Proof.
  unfold lt, le, SFltb, SFleb.
  destruct (SFcompare x y) as [[]|]; intros; try reflexivity; discriminate.
Qed.

Lemma le_trans (x y z : number) : le x y = true -> le y z = true -> le x z = true.
Proof.
  unfold le, SFleb, SFcompare.
  by_cases x; by_cases y; by_cases z; rewrite ?compare_cont_Eq;
    order_cases; cbn; intros; try reflexivity; try discriminate; lia.
Qed.

Lemma lt_not_nan (x y : number) : lt x y = true -> is_nan x = false /\ is_nan y = false.
Proof.
  unfold lt, SFltb, SFcompare. by_cases x; by_cases y; intros; split; reflexivity.
Qed.

Lemma eq_refl_number (x : number) : is_nan x = false -> eq x x = true.
Proof.
  unfold eq, SFeqb, SFcompare.
  by_cases x; intros _; change (Pos.compare_cont Eq m m) with (m ?= m)%positive;
    now rewrite Z.compare_refl, Pos.compare_refl.
Qed.

Lemma lt_irrefl (x : number) : lt x x = false.
Proof.
  unfold lt, SFltb, SFcompare.
  by_cases x; change (Pos.compare_cont Eq m m) with (m ?= m)%positive;
    now rewrite Z.compare_refl, Pos.compare_refl.
Qed.

End NumberOrder.

(** ** The bounding box *)
Module BoundingBox.
Import JSNumber Planner NumberOrder.

Section Scan.
Variable f : Waypoint -> number.

(** One extremum, followed through the scan. *)
Lemma least_scan (l : list Waypoint) (m0 : number) :
  is_nan m0 = false ->
  (forall wp, wp ∈ l -> is_nan (f wp) = false) ->
  let m := fold_left (fun m wp => if lt (f wp) m then f wp else m) l m0 in
  (m = m0 \/ exists wp, wp ∈ l /\ m = f wp)
  /\ le m m0 = true
  /\ forall wp, wp ∈ l -> le m (f wp) = true.
Proof.
  revert m0. induction l as [|w l IH]; intros m0 Hm0 Hl; cbn.
  - split; [now left|]. split; [now apply le_refl|]. intros wp Hwp. inversion Hwp.
  - assert (Hw : is_nan (f w) = false) by (apply Hl; left).
    assert (Hl' : forall wp, wp ∈ l -> is_nan (f wp) = false)
      by (intros wp Hwp; apply Hl; now right).
    destruct (lt (f w) m0) eqn:Hlt.
    + destruct (IH (f w) Hw Hl') as (Hin & Hle & Hall).
      split; [|split].
      * right. destruct Hin as [->|(wp & Hwp & ->)].
        -- exists w. split; [left|reflexivity].
        -- exists wp. split; [now right|reflexivity].
      * eapply le_trans; [exact Hle|]. now apply lt_le.
      * intros wp Hwp. apply elem_of_cons in Hwp as [->|Hwp]; [exact Hle|now apply Hall].
    + destruct (IH m0 Hm0 Hl') as (Hin & Hle & Hall).
      split; [|split].
      * destruct Hin as [->|(wp & Hwp & ->)]; [now left|].
        right. exists wp. split; [now right|reflexivity].
      * exact Hle.
      * intros wp Hwp. apply elem_of_cons in Hwp as [->|Hwp]; [|now apply Hall].
        eapply le_trans; [exact Hle|]. now apply not_lt_le.
Qed.

Lemma greatest_scan (l : list Waypoint) (m0 : number) :
  is_nan m0 = false ->
  (forall wp, wp ∈ l -> is_nan (f wp) = false) ->
  let m := fold_left (fun m wp => if gt (f wp) m then f wp else m) l m0 in
  (m = m0 \/ exists wp, wp ∈ l /\ m = f wp)
  /\ le m0 m = true
  /\ forall wp, wp ∈ l -> le (f wp) m = true.
Proof.
  revert m0. induction l as [|w l IH]; intros m0 Hm0 Hl; cbn.
  - split; [now left|]. split; [now apply le_refl|]. intros wp Hwp. inversion Hwp.
  - assert (Hw : is_nan (f w) = false) by (apply Hl; left).
    assert (Hl' : forall wp, wp ∈ l -> is_nan (f wp) = false)
      by (intros wp Hwp; apply Hl; now right).
    destruct (gt (f w) m0) eqn:Hgt; unfold gt in Hgt.
    + destruct (IH (f w) Hw Hl') as (Hin & Hle & Hall).
      split; [|split].
      * right. destruct Hin as [->|(wp & Hwp & ->)].
        -- exists w. split; [left|reflexivity].
        -- exists wp. split; [now right|reflexivity].
      * eapply le_trans; [|exact Hle]. now apply lt_le.
      * intros wp Hwp. apply elem_of_cons in Hwp as [->|Hwp]; [exact Hle|now apply Hall].
    + destruct (IH m0 Hm0 Hl') as (Hin & Hle & Hall).
      split; [|split].
      * destruct Hin as [->|(wp & Hwp & ->)]; [now left|].
        right. exists wp. split; [now right|reflexivity].
      * exact Hle.
      * intros wp Hwp. apply elem_of_cons in Hwp as [->|Hwp]; [|now apply Hall].
        eapply le_trans; [|exact Hle]. now apply not_lt_le.
Qed.

End Scan.

(** Each extremum is scanned on its own. *)
Lemma widen_scan (l : list Waypoint) (b : Box) :
  fold_left widen l b =
  {| minLon := fold_left (fun m wp => if lt (lon wp) m then lon wp else m) l (minLon b);
     maxLon := fold_left (fun m wp => if gt (lon wp) m then lon wp else m) l (maxLon b);
     minLat := fold_left (fun m wp => if lt (lat wp) m then lat wp else m) l (minLat b);
     maxLat := fold_left (fun m wp => if gt (lat wp) m then lat wp else m) l (maxLat b) |}.
Proof.
  revert b. induction l as [|w l IH]; intros b; cbn.
  - now destruct b.
  - rewrite IH. unfold widen, lon, lat. now destruct (coord w).
Qed.

Lemma elem_of_fmap_1 {A B} (g : A -> B) (l : list A) (x : A) : x ∈ l -> g x ∈ g <$> l.
Proof. intros H. apply list_elem_of_fmap. now exists x. Qed.

Lemma minimum_of_scan (g : Waypoint -> number) (first : Waypoint) (rest : list Waypoint) :
  no_nan (g <$> first :: rest) ->
  is_minimum
    (fold_left (fun m wp => if lt (g wp) m then g wp else m) (first :: rest) (g first))
    (g <$> first :: rest).
Proof.
  intros Hnan.
  assert (H0 : is_nan (g first) = false) by (apply Hnan, elem_of_fmap_1; left).
  assert (Hl : forall wp, wp ∈ first :: rest -> is_nan (g wp) = false)
    by (intros wp Hwp; now apply Hnan, elem_of_fmap_1).
  destruct (least_scan g (first :: rest) (g first) H0 Hl) as (Hin & _ & Hall).
  split.
  - destruct Hin as [->|(wp & Hwp & ->)]; apply elem_of_fmap_1; [left|exact Hwp].
  - intros x Hx. apply list_elem_of_fmap in Hx as (wp & -> & Hwp). now apply Hall.
Qed.

Lemma maximum_of_scan (g : Waypoint -> number) (first : Waypoint) (rest : list Waypoint) :
  no_nan (g <$> first :: rest) ->
  is_maximum
    (fold_left (fun m wp => if gt (g wp) m then g wp else m) (first :: rest) (g first))
    (g <$> first :: rest).
Proof.
  intros Hnan.
  assert (H0 : is_nan (g first) = false) by (apply Hnan, elem_of_fmap_1; left).
  assert (Hl : forall wp, wp ∈ first :: rest -> is_nan (g wp) = false)
    by (intros wp Hwp; now apply Hnan, elem_of_fmap_1).
  destruct (greatest_scan g (first :: rest) (g first) H0 Hl) as (Hin & _ & Hall).
  split.
  - destruct Hin as [->|(wp & Hwp & ->)]; apply elem_of_fmap_1; [left|exact Hwp].
  - intros x Hx. apply list_elem_of_fmap in Hx as (wp & -> & Hwp). now apply Hall.
Qed.

Local Open Scope string_scope.

(** C3, as amended: the box is initialised from the first coordinate and
    each of its four extrema is updated on its own in one pass over the
    list; for every non-empty list of coordinates none of which is NaN the
    result is made of the least and greatest longitude and latitude of
    the list; on (0,0), (5,10), (-2,3) it is minLon = -2, maxLon = 5,
    minLat = 0, maxLat = 10; on a single point the box is that point on
    both axes, so min == max on both when its coordinates are not NaN. *)
Theorem bounding_box_extrema :
  (forall (first : Waypoint) (rest : list Waypoint),
      no_nan (lon <$> first :: rest) ->
      no_nan (lat <$> first :: rest) ->
      let b := bounding_box first (first :: rest) in
      is_minimum (minLon b) (lon <$> first :: rest)
      /\ is_maximum (maxLon b) (lon <$> first :: rest)
      /\ is_minimum (minLat b) (lat <$> first :: rest)
      /\ is_maximum (maxLat b) (lat <$> first :: rest))
  /\ (forall (first : Waypoint) (seen : list Waypoint) (wp : Waypoint),
        bounding_box first [] =
          {| minLon := lon first; maxLon := lon first;
             minLat := lat first; maxLat := lat first |}
        /\ bounding_box first (seen ++ [wp]) = widen (bounding_box first seen) wp)
  /\ (forall n1 n2 n3 : string,
        let p1 := {| name := n1; coord := (of_Z 0, of_Z 0) |} in
        let p2 := {| name := n2; coord := (of_Z 5, of_Z 10) |} in
        let p3 := {| name := n3; coord := (of_Z (-2), of_Z 3) |} in
        bounding_box p1 [p1; p2; p3] =
          {| minLon := of_Z (-2); maxLon := of_Z 5;
             minLat := of_Z 0; maxLat := of_Z 10 |})
  /\ (forall wp : Waypoint,
        let b := bounding_box wp [wp] in
        minLon b = lon wp /\ maxLon b = lon wp
        /\ minLat b = lat wp /\ maxLat b = lat wp
        /\ (is_nan (lon wp) = false -> eq (minLon b) (maxLon b) = true)
        /\ (is_nan (lat wp) = false -> eq (minLat b) (maxLat b) = true)).
Proof.
  split; [|split; [|split]].
  - intros first rest Hlon Hlat b. subst b. unfold bounding_box.
    rewrite widen_scan. cbn [minLon maxLon minLat maxLat].
    split; [|split; [|split]].
    + now apply (minimum_of_scan lon).
    + now apply (maximum_of_scan lon).
    + now apply (minimum_of_scan lat).
    + now apply (maximum_of_scan lat).
  - intros first seen wp. split; [reflexivity|].
    unfold bounding_box. now rewrite fold_left_app.
  - intros n1 n2 n3. reflexivity.
  - intros [n [x y]]. unfold bounding_box, widen, gt, lon, lat. cbn.
    rewrite !lt_irrefl. repeat (split; [reflexivity|]).
    split; apply eq_refl_number.
Qed.

(** A batch of two places whose coordinates are all numbers. *)
Lemma bounding_box_extrema_witness :
  let p1 := {| name := "Paris"; coord := (of_Z 2, of_Z 48) |} in
  let p2 := {| name := "Quito"; coord := (of_Z (-78), of_Z 0) |} in
  is_minimum (minLon (bounding_box p1 [p1; p2])) (lon <$> [p1; p2]).
Proof.
  intros p1 p2.
  refine (proj1 (proj1 bounding_box_extrema p1 [p2] _ _)).
  - intros x Hx. apply elem_of_cons in Hx as [->|Hx]; [reflexivity|].
    apply elem_of_cons in Hx as [->|Hx]; [reflexivity|]. inversion Hx.
  - intros x Hx. apply elem_of_cons in Hx as [->|Hx]; [reflexivity|].
    apply elem_of_cons in Hx as [->|Hx]; [reflexivity|]. inversion Hx.
Defined.

(** C3, as stated, fails when a coordinate is NaN: the same two
    coordinates give a box whose west edge is NaN when the NaN longitude
    comes first and 1 when it comes last, and in neither case is that
    edge below every longitude of the list. *)
Lemma bounding_box_nan_counterexample :
  let p1 := {| name := "a"; coord := (NaN, of_Z 0) |} in
  let p2 := {| name := "b"; coord := (of_Z 1, of_Z 0) |} in
  minLon (bounding_box p1 [p1; p2]) = NaN
  /\ minLon (bounding_box p2 [p2; p1]) = of_Z 1
  /\ ~ is_minimum (minLon (bounding_box p1 [p1; p2])) (lon <$> [p1; p2])
  /\ ~ is_minimum (minLon (bounding_box p2 [p2; p1])) (lon <$> [p2; p1]).
Proof.
  intros p1 p2. split; [reflexivity|]. split; [reflexivity|]. split.
  - intros [_ Hall]. specialize (Hall (of_Z 1)).
    assert (Hin : of_Z 1 ∈ lon <$> [p1; p2]) by (right; left).
    specialize (Hall Hin). discriminate Hall.
  - intros [_ Hall]. specialize (Hall NaN).
    assert (Hin : NaN ∈ lon <$> [p2; p1]) by (right; left).
    specialize (Hall Hin). discriminate Hall.
Qed.

End BoundingBox.

(** ** Reordering the waypoints *)
Module Reorder.
Import JSNumber Planner.

Section Swap.
Context {A : Type}.
Implicit Types a : list (option A).

Lemma get_inside a (i : Z) :
  0 <= i < Z.of_nat (length a) -> a !! Z.to_nat i = Some (JSArray.get a i).
Proof.
  intros Hi. unfold JSArray.get. rewrite (proj2 (Z.ltb_ge i 0)) by lia.
  destruct (lookup_lt_is_Some_2 a (Z.to_nat i)) as [x Hx]; [lia|].
  now rewrite Hx.
Qed.

Lemma set_inside a (i : Z) (v : option A) :
  0 <= i < Z.of_nat (length a) -> JSArray.set a i v = <[Z.to_nat i := v]> a.
Proof.
  intros Hi. unfold JSArray.set. rewrite (proj2 (Z.ltb_ge i 0)) by lia.
  now rewrite (proj2 (Nat.ltb_lt (Z.to_nat i) (length a))) by lia.
Qed.

(** With both positions inside the array the two writes are two updates. *)
Lemma swap_inside a (i j : Z) :
  0 <= i < Z.of_nat (length a) -> 0 <= j < Z.of_nat (length a) ->
  JSArray.swap a i j =
  <[Z.to_nat j := JSArray.get a i]> (<[Z.to_nat i := JSArray.get a j]> a).
Proof.
  intros Hi Hj. unfold JSArray.swap. cbn [fst snd].
  rewrite (set_inside a i) by exact Hi.
  rewrite set_inside by (rewrite length_insert; exact Hj).
  reflexivity.
Qed.

Lemma length_swap_inside a (i j : Z) :
  0 <= i < Z.of_nat (length a) -> 0 <= j < Z.of_nat (length a) ->
  length (JSArray.swap a i j) = length a.
Proof. intros Hi Hj. rewrite swap_inside by assumption. now rewrite !length_insert. Qed.

Lemma swap_inside_Permutation a (i j : Z) :
  0 <= i < Z.of_nat (length a) -> 0 <= j < Z.of_nat (length a) ->
  JSArray.swap a i j ≡ₚ a.
Proof.
  intros Hi Hj. rewrite swap_inside by assumption.
  apply Permutation_insert_swap; now apply get_inside.
Qed.

Lemma swap_inside_lookup a (i j : Z) (k : nat) :
  0 <= i < Z.of_nat (length a) -> 0 <= j < Z.of_nat (length a) ->
  JSArray.swap a i j !! k =
  if decide (k = Z.to_nat j) then a !! Z.to_nat i
  else if decide (k = Z.to_nat i) then a !! Z.to_nat j
  else a !! k.
Proof.
  intros Hi Hj. rewrite swap_inside by assumption.
  rewrite !list_lookup_insert, !length_insert.
  rewrite (get_inside a i Hi), (get_inside a j Hj).
  repeat case_decide; try reflexivity; lia.
Qed.

(** Swapping back gives the array back. *)
Lemma swap_swap a (i j : Z) :
  0 <= i < Z.of_nat (length a) -> 0 <= j < Z.of_nat (length a) ->
  JSArray.swap (JSArray.swap a i j) j i = a.
Proof.
  intros Hi Hj. apply list_eq. intros k.
  rewrite swap_inside_lookup by (rewrite length_swap_inside; assumption).
  rewrite !swap_inside_lookup by assumption.
  repeat case_decide; subst; try reflexivity; congruence || lia.
Qed.

End Swap.

Lemma target_inside (n : nat) (t : Z) :
  0 <= t < Z.of_nat n -> (t <? 0) || (t >=? Z.of_nat n) = false.
Proof.
  intros H. rewrite Z.geb_leb.
  rewrite (proj2 (Z.ltb_ge t 0)), (proj2 (Z.leb_gt (Z.of_nat n) t)); [reflexivity|lia..].
Qed.

Lemma target_outside (n : nat) (t : Z) :
  t < 0 \/ Z.of_nat n <= t -> (t <? 0) || (t >=? Z.of_nat n) = true.
Proof.
  intros H. rewrite Z.geb_leb. apply orb_true_iff.
  destruct H; [left; now apply Z.ltb_lt|right; now apply Z.leb_le].
Qed.

Lemma setWaypoints_same (st : Page) : setWaypoints (waypoints st) st = st.
Proof. now destruct st. Qed.

Lemma setWaypoints_twice (ws ws' : list (option Waypoint)) (st : Page) :
  setWaypoints ws (setWaypoints ws' st) = setWaypoints ws st.
Proof. reflexivity. Qed.

Local Open Scope string_scope.

(** C4: a move is undone by the opposite move from the position reached:
    for an index inside the sequence and a direction -1 or +1 whose target
    is inside too, [moveWaypoint index direction] followed by
    [moveWaypoint (index + direction) (- direction)] gives the page back. *)
Theorem moveWaypoint_inverse (st : Page) (index direction : Z) :
  0 <= index < Z.of_nat (length (waypoints st)) ->
  direction = -1 \/ direction = 1 ->
  0 <= index + direction < Z.of_nat (length (waypoints st)) ->
  moveWaypoint (index + direction) (- direction) (moveWaypoint index direction st) = st.
Proof.
  intros Hi _ Ht. unfold moveWaypoint at 2.
  rewrite target_inside by exact Ht.
  unfold moveWaypoint. cbn [waypoints setWaypoints].
  replace (index + direction + - direction) with index by lia.
  rewrite length_swap_inside by assumption.
  rewrite target_inside by exact Hi.
  rewrite swap_swap by assumption.
  now destruct st.
Qed.

Lemma moveWaypoint_inverse_witness :
  moveWaypoint (1 + 1) (- 1) (moveWaypoint 1 1 (setWaypoints sample mounted))
  = setWaypoints sample mounted.
Proof.
  apply moveWaypoint_inverse; cbn; lia.
Defined.

(** C5: when the target position [index + direction] is below 0 or at or
    after the length, [moveWaypoint] gives back the page it was given,
    waypoints included; nothing is raised. *)
Theorem moveWaypoint_out_of_bounds (st : Page) (index direction : Z) :
  index + direction < 0 \/ Z.of_nat (length (waypoints st)) <= index + direction ->
  moveWaypoint index direction st = st
  /\ waypoints (moveWaypoint index direction st) = waypoints st.
Proof.
  intros Ht. unfold moveWaypoint. rewrite target_outside by exact Ht. now split.
Qed.

Lemma moveWaypoint_out_of_bounds_witness :
  moveWaypoint 2 1 (setWaypoints sample mounted) = setWaypoints sample mounted
  /\ waypoints (moveWaypoint 2 1 (setWaypoints sample mounted)) = sample.
Proof.
  apply (moveWaypoint_out_of_bounds (setWaypoints sample mounted) 2 1). cbn. lia.
Defined.

(** C10, as amended: for an index inside the sequence and any integer
    direction, [moveWaypoint] keeps the length and the waypoints as a
    multiset; it leaves the sequence as it is when the target is outside,
    and otherwise exchanges the elements at [index] and
    [index + direction] and touches no other position. *)
Theorem moveWaypoint_permutes (st : Page) (index direction : Z) :
  0 <= index < Z.of_nat (length (waypoints st)) ->
  let ws := waypoints st in
  let ws' := waypoints (moveWaypoint index direction st) in
  let i := Z.to_nat index in
  let j := Z.to_nat (index + direction) in
  length ws' = length ws
  /\ ws' ≡ₚ ws
  /\ (ws' = ws
      \/ (0 <= index + direction < Z.of_nat (length ws)
          /\ ws' !! i = ws !! j
          /\ ws' !! j = ws !! i
          /\ forall k, k <> i -> k <> j -> ws' !! k = ws !! k)).
Proof.
  intros Hi ws ws' i j. subst ws ws' i j. unfold moveWaypoint.
  destruct (Z_lt_le_dec (index + direction) 0) as [Hneg|Hpos];
    [|destruct (Z_lt_le_dec (index + direction) (Z.of_nat (length (waypoints st))))
        as [Hin|Hout]].
  - rewrite target_outside by (left; exact Hneg). split; [|split]; auto.
  - assert (Ht : 0 <= index + direction < Z.of_nat (length (waypoints st))) by lia.
    rewrite target_inside by exact Ht. cbn [waypoints setWaypoints].
    split; [now apply length_swap_inside|].
    split; [now apply swap_inside_Permutation|].
    right. split; [exact Ht|].
    split; [|split].
    + rewrite swap_inside_lookup by assumption.
      repeat case_decide; congruence.
    + rewrite swap_inside_lookup by assumption.
      repeat case_decide; congruence.
    + intros k Hki Hkj. rewrite swap_inside_lookup by assumption.
      repeat case_decide; congruence.
  - rewrite target_outside by (right; exact Hout). split; [|split]; auto.
Qed.

Lemma moveWaypoint_permutes_witness :
  waypoints (moveWaypoint 0 2 (setWaypoints sample mounted)) ≡ₚ sample.
Proof.
  refine (proj1 (proj2 (moveWaypoint_permutes (setWaypoints sample mounted) 0 2 _))).
  cbn. lia.
Defined.

(** C10, as stated, fails for an index outside the sequence whose target
    is inside: moving position 3 of three waypoints by -3 gives four
    elements, the first of them [undefined]; moving position -1 by +1
    keeps three elements and loses the first waypoint. *)
Lemma moveWaypoint_outside_index_counterexample :
  let st := setWaypoints sample mounted in
  length (waypoints (moveWaypoint 3 (-3) st)) <> length (waypoints st)
  /\ waypoints (moveWaypoint 3 (-3) st) !! 0%nat = Some None
  /\ ~ waypoints (moveWaypoint (-1) 1 st) ≡ₚ waypoints st.
Proof.
  cbn. split; [discriminate|]. split; [reflexivity|].
  intros Hp.
  assert (Hin : Some {| name := "A"; coord := (of_Z 0, of_Z 0) |}
                ∈ waypoints (moveWaypoint (-1) 1 (setWaypoints sample mounted))).
  { rewrite Hp. left. }
  cbn in Hin.
  repeat (apply elem_of_cons in Hin as [Hin|Hin]; [discriminate Hin|]).
  inversion Hin.
Qed.

End Reorder.

(** ** The terrain toggle *)
Module Terrain.
Import JSNumber Planner.

(** From a page whose flag agrees with the map, two toggles give the page
    back. *)
Lemma toggleTerrain_twice_consistent (st : Page) :
  terrain_consistent st -> toggleTerrain (toggleTerrain st) = st.
Proof.
  destruct st as [text ws flag [[t fits]|] al rq er]; unfold terrain_consistent; cbn;
    [|reflexivity].
  intros ->. unfold toggleTerrain. now destruct flag.
Qed.

(** C6, on the page as it is once the map is created: the flag starts
    false while the style given to the map has terrain on; two toggles
    restore the flag and leave the map without terrain, so the map's
    terrain setting is not the one it had before the first toggle. *)
Theorem toggleTerrain_twice_from_start :
  let st := mapCreated mounted in
  let st' := toggleTerrain (toggleTerrain st) in
  terrainEnabled st' = terrainEnabled st
  /\ map_terrain st = Some (Some terrain_on)
  /\ map_terrain st' = Some None
  /\ ~ terrain_consistent st.
Proof.
  cbn. repeat split; try reflexivity. unfold terrain_consistent. cbn. discriminate.
Qed.

End Terrain.

(** ** The geocoding batch *)
Module Geocode.
Import JSString JSNumber Planner.

Local Open Scope string_scope.
Local Open Scope list_scope.

(** *** The names *)

Lemma truthy_eqb (s : string) : truthy s = negb (String.eqb s "").
Proof. now destruct s. Qed.

Lemma kept_cons (p : string) (ps qs : list string) :
  List.filter truthy (List.map trim ps) = List.filter truthy (List.map trim qs) ->
  List.filter truthy (List.map trim (p :: ps))
  = List.filter truthy (List.map trim (p :: qs)).
Proof. intros H. cbn. now rewrite H. Qed.

(** Splitting at runs of line feeds and splitting at every line feed give
    the same first piece, and the same pieces once the blank ones are
    dropped. *)
Lemma split_runs_lines (s : string) :
  (exists p ps qs,
      split_runs false s = p :: ps /\ lines s = p :: qs
      /\ List.filter truthy (List.map trim ps) = List.filter truthy (List.map trim qs))
  /\ List.filter truthy (List.map trim (split_runs true s))
     = List.filter truthy (List.map trim (lines s)).
Proof.
  induction s as [|c s [(p & ps & qs & Hs & Hl & Hk) Hrun]]; cbn.
  - split; [|reflexivity]. now exists "", [], [].
  - destruct (is_LF c).
    + split; [|exact Hrun]. now exists "", (split_runs true s), (lines s).
    + rewrite Hs, Hl. cbn. split.
      * now exists (String c p), ps, qs.
      * now rewrite Hk.
Qed.

Lemma scene_names_spec (text : string) : scene_names text = spec_names text.
Proof.
  unfold scene_names, spec_names, split_newlines.
  destruct (split_runs_lines text) as [(p & ps & qs & -> & -> & Hk) _].
  rewrite (kept_cons p ps qs Hk).
  apply List.filter_ext. intros line. apply truthy_eqb.
Qed.

(** *** One turn of the loop *)

Lemma append_empty (s : string) : s +:+ "" = s.
Proof.
  induction s as [|c s IH]; [reflexivity|].
  change (String c s +:+ "") with (String c (s +:+ "")). now rewrite IH.
Qed.

Lemma lookup_spec (net : network) (k : nat) (name : string)
    (st : Page) (ws : list Waypoint) :
  exists st' found notices,
    lookup net k name (st, ws) = (st', ws ++ found)
    /\ requests st' = requests st ++ [search_url name]
    /\ alerts st' = alerts st ++ notices
    /\ waypoints st' = waypoints st /\ map st' = map st
    /\ sceneText st' = sceneText st /\ terrainEnabled st' = terrainEnabled st
    /\ (if succeeds net k name
        then notices = []
             /\ exists lat lon others,
                 net k (search_url name)
                 = Response true (Parsed (Array (Place lat lon :: others)))
                 /\ found = [{| name := name;
                                coord := (parseFloat_property lon,
                                          parseFloat_property lat) |}]
        else found = []
             /\ exists notice, notices = [notice] /\ mentions notice name).
Proof.
  unfold lookup, succeeds.
  assert (Hcatch : forall message, mentions ("Error geocoding " +:+ name +:+ ": " +:+ message) name)
    by (intros message; now exists "Error geocoding ", (": " +:+ message)).
  assert (Hmiss : mentions ("Could not find location: " +:+ name) name).
  { exists "Could not find location: ", "". now rewrite append_empty. }
  destruct (net k (search_url name)) as [message|[] [message|[|[|[lat lon|message] others]]]].
  all: try (eexists _, [], [_]; rewrite app_nil_r; cbn;
            repeat (split; [reflexivity|]); eauto 10; fail).
  eexists _, [_], []. cbn. rewrite app_nil_r.
  repeat (split; [reflexivity|]). eauto 10.
Qed.

(** *** The whole loop *)

Lemma lookups_spec (net : network) (names : list string) :
  forall (k : nat) (st : Page) (ws : list Waypoint),
  exists st' found notices,
    lookups net k names (st, ws) = (st', ws ++ found)
    /\ requests st' = requests st ++ (search_url <$> names)
    /\ alerts st' = alerts st ++ notices
    /\ waypoints st' = waypoints st /\ map st' = map st
    /\ sceneText st' = sceneText st /\ terrainEnabled st' = terrainEnabled st
    /\ name <$> found = succeeded net k names
    /\ Forall2 mentions notices (failed net k names)
    /\ (forall wp, wp ∈ found ->
          exists k' url lat lon others,
            net k' url = Response true (Parsed (Array (Place lat lon :: others)))
            /\ coord wp = (parseFloat_property lon, parseFloat_property lat))
    /\ (length found + length notices = length names)%nat.
Proof.
  induction names as [|n names IH]; intros k st ws.
  - exists st, [], []. cbn. rewrite !app_nil_r.
    repeat (split; [reflexivity || constructor|]).
    split; [intros wp Hwp; inversion Hwp|reflexivity].
  - destruct (lookup_spec net k n st ws)
      as (st1 & found1 & notices1 & E1 & Rq1 & Al1 & Wp1 & Mp1 & Tx1 & Te1 & Hk).
    destruct (IH (S k) st1 (ws ++ found1))
      as (st2 & found2 & notices2 & E2 & Rq2 & Al2 & Wp2 & Mp2 & Tx2 & Te2
          & Hn & Hm & Hc & Hlen).
    exists st2, (found1 ++ found2), (notices1 ++ notices2).
    cbn [lookups]. rewrite E1, E2, Rq2, Rq1, Al2, Al1, Wp2, Wp1, Mp2, Mp1.
    rewrite Tx2, Tx1, Te2, Te1, fmap_cons, fmap_app, !length_app.
    split; [now rewrite app_assoc|].
    split; [now rewrite <- app_assoc|].
    split; [now rewrite <- app_assoc|].
    repeat (split; [reflexivity|]).
    cbn [succeeded failed]. destruct (succeeds net k n).
    + destruct Hk as (-> & lat & lon & others & Hnet & ->). cbn.
      split; [now f_equal|]. split; [exact Hm|]. split; [|now rewrite Hlen].
      intros wp Hwp. apply elem_of_cons in Hwp as [->|Hwp]; [|now apply Hc].
      now exists k, (search_url n), lat, lon, others.
    + destruct Hk as (-> & notice & -> & Hnotice). cbn.
      split; [exact Hn|]. split; [now constructor|]. split; [exact Hc|].
      rewrite <- Hlen. lia.
Qed.

(** What pressing the button does, in terms of the loop's result. *)
Lemma geocodeScenes_spec (net : network) (st : Page) :
  let names := scene_names (sceneText st) in
  names <> [] ->
  exists found notices,
    waypoints (geocodeScenes net st)
      = match found with [] => waypoints st | _ :: _ => Some <$> found end
    /\ requests (geocodeScenes net st) = requests st ++ (search_url <$> names)
    /\ alerts (geocodeScenes net st) = alerts st ++ notices
    /\ name <$> found = succeeded net 0 names
    /\ Forall2 mentions notices (failed net 0 names)
    /\ (forall wp, wp ∈ found ->
          exists k' url lat lon others,
            net k' url = Response true (Parsed (Array (Place lat lon :: others)))
            /\ coord wp = (parseFloat_property lon, parseFloat_property lat))
    /\ (length found + length notices = length names)%nat.
Proof.
  intros names Hne. unfold geocodeScenes. fold names.
  destruct (lookups_spec net names 0%nat st [])
    as (st1 & found & notices & E & Rq & Al & Wp & Mp & _ & _ & Hn & Hm & Hc & Hlen).
  exists found, notices.
  destruct names as [|n rest] eqn:En; [now contradiction Hne|].
  rewrite E. cbn [app]. rewrite <- Rq, <- Al, <- Wp.
  destruct found as [|first others]; [now repeat split|].
  cbn [setWaypoints map]. destruct (map st1); now repeat split.
Qed.

(** *** The statements *)

(** C8: when no name is left after splitting and trimming, the page shows
    one notice, requests nothing and keeps its waypoints (and everything
    else) as they were. *)
Theorem geocode_empty_input (net : network) (st : Page) :
  scene_names (sceneText st) = [] ->
  let st' := geocodeScenes net st in
  alerts st' = alerts st ++ [empty_notice]
  /\ requests st' = requests st
  /\ waypoints st' = waypoints st
  /\ map st' = map st
  /\ st' = alert empty_notice st.
Proof.
  intros Hnames. unfold geocodeScenes. rewrite Hnames. cbn. now repeat split.
Qed.

Lemma geocode_empty_input_witness :
  let st := setSceneText blank_lines (setWaypoints sample mounted) in
  alerts (geocodeScenes first_only st) = [empty_notice]
  /\ requests (geocodeScenes first_only st) = []
  /\ waypoints (geocodeScenes first_only st) = sample.
Proof.
  intros st.
  destruct (geocode_empty_input first_only st) as (Ha & Hr & Hw & _); [reflexivity|].
  now split.
Defined.

Lemma succeeds_inv (net : network) (k : nat) (name : string) :
  succeeds net k name = true ->
  exists lat lon others,
    net k (search_url name) = Response true (Parsed (Array (Place lat lon :: others))).
Proof.
  unfold succeeds.
  destruct (net k (search_url name)) as [?|[] [?|[|[|[lat lon|?] others]]]];
    try discriminate.
  intros _. now exists lat, lon, others.
Qed.

(** C2, as amended: a failure of one name does not stop the batch, every
    name is looked up.  When
    at least one name succeeds the Store becomes the waypoints of exactly
    the names that succeeded, in input order; when none succeeds the Store
    stays as it was.  Each failed name gets one notice that names it, in
    input order.  With two names of which one is answered by an empty
    array and the other succeeds, the Store ends with the one successful
    name and exactly one notice is added, naming the failed place. *)
Theorem geocode_batch_result :
  (forall (net : network) (st : Page),
      let names := scene_names (sceneText st) in
      let st' := geocodeScenes net st in
      (succeeded net 0 names <> [] ->
       exists found, waypoints st' = Some <$> found
                     /\ name <$> found = succeeded net 0 names)
      /\ (succeeded net 0 names = [] -> waypoints st' = waypoints st)
      /\ (names <> [] ->
          exists notices, alerts st' = alerts st ++ notices
                          /\ Forall2 mentions notices (failed net 0 names))
      /\ requests st' = requests st ++ (search_url <$> names))
  /\ (forall (net : network) (st : Page) (good bad : string),
        scene_names (sceneText st) = [good; bad] ->
        succeeds net 0 good = true ->
        net 1%nat (search_url bad) = nothing_found ->
        let st' := geocodeScenes net st in
        (exists wp, waypoints st' = [Some wp] /\ name wp = good)
        /\ alerts st' = alerts st ++ ["Could not find location: " +:+ bad])
  /\ (forall (net : network) (st : Page) (bad good : string),
        scene_names (sceneText st) = [bad; good] ->
        net 0%nat (search_url bad) = nothing_found ->
        succeeds net 1 good = true ->
        let st' := geocodeScenes net st in
        (exists wp, waypoints st' = [Some wp] /\ name wp = good)
        /\ alerts st' = alerts st ++ ["Could not find location: " +:+ bad]).
Proof.
  split; [|split].
  - intros net st names st'. subst st'.
    destruct names as [|n rest] eqn:En.
    + unfold geocodeScenes. fold names. rewrite En. cbn.
      split; [now intros []|]. split; [reflexivity|].
      split; [now intros []|now rewrite app_nil_r].
    + destruct (geocodeScenes_spec net st)
        as (found & notices & Wp & Rq & Al & Hn & Hm & _); [fold names; now rewrite En|].
      fold names in Hn, Hm, Rq. rewrite En in Hn, Hm, Rq.
      split; [|split; [|split; [|exact Rq]]].
      * intros Hsome. exists found. split; [|exact Hn].
        rewrite Wp. destruct found; [|reflexivity].
        exfalso. apply Hsome. now rewrite <- Hn.
      * intros Hnone. rewrite Wp. rewrite Hnone in Hn.
        apply fmap_nil_inv in Hn. now rewrite Hn.
      * intros _. now exists notices.
  - intros net st good bad Hnames Hgood Hbad st'. subst st'.
    destruct (succeeds_inv net 0 good Hgood) as (lat & lon & others & Hnet).
    unfold geocodeScenes. rewrite Hnames. cbn [lookups lookup].
    rewrite Hnet. cbn [lookup]. rewrite Hbad. unfold nothing_found. cbn.
    destruct (map st); cbn; (split; [eexists; split; reflexivity|reflexivity]).
  - intros net st bad good Hnames Hbad Hgood st'. subst st'.
    destruct (succeeds_inv net 1 good Hgood) as (lat & lon & others & Hnet).
    unfold geocodeScenes. rewrite Hnames. cbn [lookups lookup].
    rewrite Hbad. unfold nothing_found. cbn [lookup]. rewrite Hnet. cbn.
    destruct (map st); cbn; (split; [eexists; split; reflexivity|reflexivity]).
Qed.

Lemma geocode_batch_result_witness :
  let st :=
    setSceneText ("Paris" +:+ String LF "Atlantis") (setWaypoints sample mounted) in
  (exists wp, waypoints (geocodeScenes first_only st) = [Some wp] /\ name wp = "Paris")
  /\ alerts (geocodeScenes first_only st) = ["Could not find location: Atlantis"].
Proof.
  intros st.
  apply (proj1 (proj2 geocode_batch_result) first_only st "Paris" "Atlantis");
    reflexivity.
Defined.

(** C2, as stated, fails when no name of the batch succeeds: the Store is
    then not replaced by the (empty) list of the names that succeeded, it
    keeps the waypoints it had. *)
Lemma geocode_all_fail_counterexample :
  let st := setSceneText "Atlantis" (setWaypoints sample mounted) in
  succeeded finds_nothing 0 (scene_names (sceneText st)) = []
  /\ waypoints (geocodeScenes finds_nothing st) = sample
  /\ length (waypoints (geocodeScenes finds_nothing st)) = 3%nat.
Proof. cbn. now repeat split. Qed.

End Geocode.

(** ** The range of the stored coordinates *)
Module StoreRange.
Import JSString JSNumber Planner.

Local Open Scope string_scope.
Local Open Scope list_scope.
Local Open Scope Z_scope.

Section Elements.
Context {A : Type}.
Implicit Types a : list (option A).

Lemma get_elem a (i : Z) (x : A) : JSArray.get a i = Some x -> Some x ∈ a.
Proof.
  unfold JSArray.get. destruct (i <? 0); [discriminate|].
  destruct (a !! Z.to_nat i) as [v|] eqn:E; cbn; [|discriminate].
  intros ->. now apply list_elem_of_lookup_2 in E.
Qed.

Lemma set_elem a (i : Z) (v : option A) (x : A) :
  Some x ∈ JSArray.set a i v -> Some x ∈ a \/ v = Some x.
Proof.
  unfold JSArray.set. destruct (i <? 0); [now left|].
  destruct (Z.to_nat i <? length a)%nat.
  - intros H. apply list_elem_of_lookup_1 in H as [k Hk].
    rewrite list_lookup_insert in Hk. case_decide.
    + right. congruence.
    + left. now apply list_elem_of_lookup_2 in Hk.
  - intros H. apply elem_of_app in H as [H|H]; [now left|].
    apply elem_of_app in H as [H|H].
    + apply elem_of_replicate in H as [H _]. discriminate H.
    + apply list_elem_of_singleton in H. now right.
Qed.

(** Whatever the two positions, a swap brings in no new waypoint. *)
Lemma swap_elem a (i j : Z) (x : A) : Some x ∈ JSArray.swap a i j -> Some x ∈ a.
Proof.
  unfold JSArray.swap. cbn [fst snd]. intros H.
  apply set_elem in H as [H|H]; [|now apply get_elem in H].
  apply set_elem in H as [H|H]; [exact H|now apply get_elem in H].
Qed.

End Elements.

Lemma geocodeScenes_in_range (net : network) (st : Page) :
  input_in_range (GeocodePressed net) ->
  store_in_range st -> store_in_range (geocodeScenes net st).
Proof.
  intros Hnet Hst.
  destruct (scene_names (sceneText st)) as [|n rest] eqn:En.
  - unfold geocodeScenes. now rewrite En.
  - destruct (Geocode.geocodeScenes_spec net st)
      as (found & notices & Wp & _ & _ & _ & _ & Hc & _); [now rewrite En|].
    intros wp Hwp. rewrite Wp in Hwp. destruct found as [|first others].
    + now apply Hst.
    + apply list_elem_of_fmap in Hwp as (w & [= ->] & Hw).
      destruct (Hc w Hw) as (k & url & lat & lon & more & Hreply & ->).
      exact (Hnet k url lat lon more Hreply).
Qed.

Lemma step_in_range (st : Page) (ev : event) :
  input_in_range ev -> store_in_range st -> store_in_range (step st ev).
Proof.
  destruct ev as [|text|lng lat|net|index direction| |]; cbn [step]; intros Hev Hst.
  - exact Hst.
  - exact Hst.
  - unfold clickMap. destruct (map st); [|exact Hst].
    intros wp Hwp. cbn in Hwp. apply elem_of_app in Hwp as [Hwp|Hwp]; [now apply Hst|].
    apply list_elem_of_singleton in Hwp. injection Hwp as ->. exact Hev.
  - now apply geocodeScenes_in_range.
  - unfold moveWaypoint. destruct (_ || _); [exact Hst|].
    intros wp Hwp. cbn in Hwp. apply swap_elem in Hwp. now apply Hst.
  - intros wp Hwp. inversion Hwp.
  - unfold toggleTerrain. destruct (map st); exact Hst.
Qed.

Lemma steps_in_range (events : list event) :
  forall st, Forall input_in_range events -> store_in_range st ->
             store_in_range (fold_left step events st).
Proof.
  induction events as [|ev events IH]; intros st Hevs Hst; [exact Hst|].
  inversion Hevs; subst. cbn. apply IH; [assumption|]. now apply step_in_range.
Qed.

Lemma lookups_resolved (net : network) (names : list string) :
  forall (k : nat) (st : Page) (ws : list Waypoint),
    snd (lookups net k names (st, ws)) = ws ++ Words.resolved net k names.
Proof.
  induction names as [|n names IH]; intros k st ws; cbn [lookups Words.resolved].
  - cbn. now rewrite app_nil_r.
  - unfold lookup at 1.
    destruct (net k (search_url n)) as [?|[] [?|[|[|[lat lon|?] others]]]];
      rewrite IH; try reflexivity.
    now rewrite <- app_assoc.
Qed.

Lemma geocodeScenes_resolved (net : network) (st : Page) :
  waypoints (geocodeScenes net st)
  = match Words.resolved net 0 (scene_names (sceneText st)) with
    | [] => waypoints st
    | _ :: _ => Some <$> Words.resolved net 0 (scene_names (sceneText st))
    end.
Proof.
  unfold geocodeScenes.
  destruct (scene_names (sceneText st)) as [|n rest] eqn:En; [reflexivity|].
  pose proof (lookups_resolved net (n :: rest) 0%nat st []) as Hsnd.
  destruct (Geocode.lookups_spec net (n :: rest) 0%nat st [])
    as (st1 & found & notices & E & _ & _ & Wp & _).
  rewrite E in Hsnd |- *. cbn [snd app] in Hsnd |- *. rewrite <- Hsnd.
  destruct found as [|first others]; [exact Wp|].
  cbn [setWaypoints map]. now destruct (map st1).
Qed.

Lemma resolved_member (net : network) (names : list string) :
  forall (k i : nat) (name : string) (lat lon : option string) (others : list item),
    names !! i = Some name ->
    net (k + i)%nat (search_url name)
    = Response true (Parsed (Array (Place lat lon :: others))) ->
    {| name := name; coord := (parseFloat_property lon, parseFloat_property lat) |}
    ∈ Words.resolved net k names.
Proof.
  induction names as [|n names IH]; intros k i name lat lon others Hi Hreply;
    [discriminate Hi|].
  cbn [Words.resolved]. destruct i as [|i].
  - injection Hi as ->. rewrite Nat.add_0_r in Hreply. rewrite Hreply. left.
  - assert (Hin : {| name := name;
                     coord := (parseFloat_property lon, parseFloat_property lat) |}
                  ∈ Words.resolved net (S k) names).
    { apply (IH (S k) i name lat lon others); [exact Hi|].
      now replace (S k + i)%nat with (k + S i)%nat by lia. }
    destruct (net k (search_url n)) as [?|[] [?|[|[|[? ?|?] ?]]]];
      try exact Hin. now right.
Qed.

(** C1, as amended: the Store is as much in range as what it is given.
    If every clicked coordinate and the first result of every successful
    lookup are in longitude [-180, 180] and latitude [-90, 90], so is every
    waypoint of the Store, whatever the user does.  A geocode batch checks
    no range and no finiteness: for every lookup that succeeds it stores
    the name at (parseFloat(lon), parseFloat(lat)) of the first result of
    that lookup's own reply, as parsed; when at least one lookup succeeds
    the Store is exactly these waypoints, in input order. *)
Theorem store_in_range_if_inputs_are :
  (forall events : list event,
      Forall input_in_range events -> store_in_range (run events))
  /\ (forall (net : network) (st : Page),
        waypoints (geocodeScenes net st)
        = match Words.resolved net 0 (scene_names (sceneText st)) with
          | [] => waypoints st
          | _ :: _ => Some <$> Words.resolved net 0 (scene_names (sceneText st))
          end)
  /\ (forall (net : network) (st : Page) (k : nat) (name : string)
             (lat lon : option string) (others : list item),
        scene_names (sceneText st) !! k = Some name ->
        net k (search_url name)
        = Response true (Parsed (Array (Place lat lon :: others))) ->
        Some {| name := name;
                coord := (parseFloat_property lon, parseFloat_property lat) |}
        ∈ waypoints (geocodeScenes net st)).
Proof.
  split; [|split].
  - intros events Hevs. apply steps_in_range; [exact Hevs|].
    intros wp Hwp. inversion Hwp.
  - exact geocodeScenes_resolved.
  - intros net st k name lat lon others Hk Hreply.
    pose proof (resolved_member net (scene_names (sceneText st)) 0 k name lat lon others
                  Hk Hreply) as Hin.
    rewrite geocodeScenes_resolved.
    destruct (Words.resolved net 0 (scene_names (sceneText st))) as [|w ws] eqn:E;
      [inversion Hin|].
    now apply list_elem_of_fmap_2.
Qed.

Lemma store_in_range_if_inputs_are_witness :
  store_in_range
    (run [MapCreated; Clicked (of_Z 2) (of_Z 48); Typed two_lines;
          GeocodePressed first_only; MovePressed 0 1]).
Proof.
  apply (proj1 store_in_range_if_inputs_are).
  repeat constructor.
  intros k url lat lon others Hreply. unfold first_only in Hreply.
  destruct k; [|discriminate Hreply].
  injection Hreply as <- <- <-. reflexivity.
Defined.

(** C1, as stated, fails: a first result whose longitude is "200" and
    whose latitude is "abc" is neither rejected nor skipped; the batch
    stores a waypoint at longitude 200 and latitude NaN. *)
Lemma geocode_out_of_range_counterexample :
  let st := geocodeScenes malformed (setSceneText "Nowhere" mounted) in
  waypoints st = [Some {| name := "Nowhere"; coord := (of_Z 200, NaN) |}]
  /\ coord_in_range (of_Z 200, NaN) = false
  /\ le (of_Z 200) (of_Z 180) = false
  /\ is_nan NaN = true.
Proof. cbn. now repeat split. Qed.

End StoreRange.

(** ** The edge request filter *)
Module EdgeFilterFacts.
Import JSString EdgeFilter.

Local Open Scope string_scope.

Lemma or_else_None (a : option string) :
  or_else a None = match a with
                   | Some s => if truthy s then Some s else None
                   | None => None
                   end.
Proof. destruct a as [s|]; [|reflexivity]. cbn. now destruct (truthy s). Qed.

Lemma truthy_not_empty (s : string) : truthy s = true <-> s <> "".
Proof. destruct s; cbn; split; intros; congruence. Qed.

(** C9, as amended: both revisions of the filter let every request go on
    to its route with its headers untouched whenever [NextResponse.next()]
    returns.  When the guarded call raises an error, the guarded revision
    lets the request go on too, with the message in a response header,
    provided the handler's own call of [NextResponse.next()] returns and
    the message is a legal header value.  The address read by
    [getClientInfo] is the trimmed first entry of the forwarded-for
    header when the header is present and that entry is not empty;
    otherwise the real-IP header when it is present and not empty;
    otherwise undefined. *)
Theorem edge_filter_forwards :
  (forall (faults : nat -> option string) (req : NextRequest),
      faults 0%nat = None ->
      Guarded.middleware faults req = Returned next
      /\ ClientInfo.middleware faults req = Returned next)
  /\ (forall (faults : nat -> option string) (message : string) (req : NextRequest),
        faults 0%nat = Some message ->
        faults 1%nat = None ->
        legal_value message = true ->
        Guarded.middleware faults req
        = Returned {| action := Continue; request_override := None;
                      response_headers :=
                        [("x-middleware-error", normalize message)] |}
        /\ forwards_unchanged (Guarded.middleware faults req))
  /\ (forall (req : NextRequest) (list : string),
        headers_get req "x-forwarded-for" = Some list ->
        trim (before_first "," list) <> "" ->
        ClientInfo.ip (ClientInfo.getClientInfo req)
        = Some (trim (before_first "," list)))
  /\ (forall (req : NextRequest) (real : string),
        (headers_get req "x-forwarded-for" = None
         \/ exists list, headers_get req "x-forwarded-for" = Some list
                         /\ trim (before_first "," list) = "") ->
        headers_get req "x-real-ip" = Some real ->
        real <> "" ->
        ClientInfo.ip (ClientInfo.getClientInfo req) = Some real)
  /\ (forall req : NextRequest,
        (headers_get req "x-forwarded-for" = None
         \/ exists list, headers_get req "x-forwarded-for" = Some list
                         /\ trim (before_first "," list) = "") ->
        (headers_get req "x-real-ip" = None
         \/ headers_get req "x-real-ip" = Some "") ->
        ClientInfo.ip (ClientInfo.getClientInfo req) = None).
Proof.
  split; [|split; [|split; [|split]]].
  - intros faults req H0.
    unfold Guarded.middleware, ClientInfo.middleware, next_call. rewrite H0. now split.
  - intros faults message req H0 H1 Hlegal.
    assert (E : Guarded.middleware faults req
                = Returned {| action := Continue; request_override := None;
                              response_headers :=
                                [("x-middleware-error", normalize message)] |}).
    { unfold Guarded.middleware, next_call. rewrite H0, H1. cbn.
      unfold headers_set. now rewrite Hlegal. }
    split; [exact E|]. rewrite E. now eexists.
  - intros req list Hlist Hentry. cbn [ClientInfo.getClientInfo ClientInfo.ip].
    rewrite Hlist, or_else_None. cbn.
    apply truthy_not_empty in Hentry. now rewrite !Hentry.
  - intros req real Hlist Hreal Hne. cbn [ClientInfo.getClientInfo ClientInfo.ip].
    rewrite or_else_None. apply truthy_not_empty in Hne.
    destruct Hlist as [->|(list & -> & Hentry)]; cbn; [|rewrite Hentry; cbn];
      now rewrite Hreal, Hne.
  - intros req Hlist Hreal. cbn [ClientInfo.getClientInfo ClientInfo.ip].
    rewrite or_else_None.
    destruct Hlist as [->|(list & -> & Hentry)]; cbn; [|rewrite Hentry; cbn];
      now destruct Hreal as [->| ->].
Qed.

Lemma edge_filter_forwards_witness :
  Guarded.middleware once_failing via_proxies
  = Returned {| action := Continue; request_override := None;
                response_headers := [("x-middleware-error", "boom")] |}
  /\ forwards_unchanged (Guarded.middleware once_failing via_proxies).
Proof.
  apply (proj1 (proj2 edge_filter_forwards) once_failing " boom " via_proxies);
    reflexivity.
Defined.

(** C9, as stated, fails in two ways.  When the forwarded-for header is
    present and its first entry is empty, the address is not that entry
    but the real-IP header.  And an internal fault can stop the request:
    when the guarded call raises an error whose message holds a line
    feed, setting the header throws in the handler; when
    [NextResponse.next()] fails in the handler as well, its error leaves
    the function. *)
Lemma empty_first_entry_counterexample :
  (headers_get empty_first_entry "x-forwarded-for" = Some ",1.2.3.4"
   /\ before_first "," ",1.2.3.4" = ""
   /\ ClientInfo.ip (ClientInfo.getClientInfo empty_first_entry) = Some "9.9.9.9"
   /\ ClientInfo.ip (ClientInfo.getClientInfo empty_first_entry)
      <> Some (before_first "," ",1.2.3.4"))
  /\ (Guarded.middleware two_lines_fault via_proxies = Thrown type_error
      /\ ~ forwards_unchanged (Guarded.middleware two_lines_fault via_proxies))
  /\ (Guarded.middleware always_failing via_proxies = Thrown "down"
      /\ ~ forwards_unchanged (Guarded.middleware always_failing via_proxies)).
Proof.
  assert (Hip : ClientInfo.ip (ClientInfo.getClientInfo empty_first_entry) = Some "9.9.9.9")
    by (vm_compute; reflexivity).
  split; [|split].
  - split; [vm_compute; reflexivity|]. split; [reflexivity|]. split; [exact Hip|].
    rewrite Hip. discriminate.
  - split; [reflexivity|]. intros (res & H & _). discriminate H.
  - split; [reflexivity|]. intros (res & H & _). discriminate H.
Qed.

End EdgeFilterFacts.

(** ** The names of a batch, and the URL of a lookup *)
Module NamesFacts.
Import JSString JSNumber Planner Words.

Local Open Scope string_scope.
Local Open Scope list_scope.

Lemma trimEnd_idempotent (s : string) : trimEnd (trimEnd s) = trimEnd s.
Proof.
  induction s as [|c s IH]; [reflexivity|]. cbn.
  destruct (is_empty (trimEnd s) && is_white_space c) eqn:E; [reflexivity|].
  cbn. now rewrite IH, E.
Qed.

Lemma trimEnd_keeps_head (c : ascii) (s : string) :
  is_white_space c = false -> trimEnd (String c s) = String c (trimEnd s).
Proof. intros H. cbn. now rewrite H, andb_false_r. Qed.

Lemma trimStart_trimEnd (s : string) :
  trimStart (trimEnd (trimStart s)) = trimEnd (trimStart s).
Proof.
  induction s as [|c s IH]; [reflexivity|].
  cbn [trimStart]. destruct (is_white_space c) eqn:E; [exact IH|].
  rewrite trimEnd_keeps_head by exact E. cbn [trimStart]. now rewrite E.
Qed.

Lemma trim_idempotent (s : string) : trim (trim s) = trim s.
Proof. unfold trim. now rewrite trimStart_trimEnd, trimEnd_idempotent. Qed.

Lemma trimStart_no_LF (s : string) :
  any_unit is_LF s = false -> any_unit is_LF (trimStart s) = false.
Proof.
  induction s as [|c s IH]; [reflexivity|]. cbn.
  intros H. apply orb_false_iff in H as [Hc Hs].
  destruct (is_white_space c); [now apply IH|]. cbn. now rewrite Hc, Hs.
Qed.

Lemma trimEnd_no_LF (s : string) :
  any_unit is_LF s = false -> any_unit is_LF (trimEnd s) = false.
Proof.
  induction s as [|c s IH]; [reflexivity|]. cbn.
  intros H. apply orb_false_iff in H as [Hc Hs].
  destruct (is_empty (trimEnd s) && is_white_space c); [reflexivity|].
  cbn. now rewrite Hc, IH.
Qed.

Lemma cons_first_no_LF (c : ascii) (pieces : list string) :
  is_LF c = false ->
  Forall (fun p => any_unit is_LF p = false) pieces ->
  Forall (fun p => any_unit is_LF p = false) (cons_first c pieces).
Proof.
  intros Hc Hp. destruct pieces as [|p ps]; cbn.
  - constructor; [|constructor]. cbn. now rewrite Hc.
  - inversion Hp; subst. constructor; [|assumption]. cbn. now rewrite Hc.
Qed.

Lemma split_runs_no_LF (b : bool) (s : string) :
  Forall (fun p => any_unit is_LF p = false) (split_runs b s).
Proof.
  revert b. induction s as [|c s IH]; intros b; cbn.
  - now constructor.
  - destruct (is_LF c) eqn:Hc.
    + destruct b; [apply IH|]. constructor; [reflexivity|apply IH].
    + now apply cons_first_no_LF.
Qed.

(** X1: every name of a batch is not empty, has no white space left at
    either end and holds no line feed. *)
Theorem scene_names_clean (text name : string) :
  name ∈ scene_names text -> clean name.
Proof.
  unfold scene_names, split_newlines. intros Hin.
  apply list_elem_of_In, List.filter_In in Hin as [Hin Htruthy].
  apply List.in_map_iff in Hin as (piece & <- & Hpiece).
  split; [exact Htruthy|]. split; [apply trim_idempotent|].
  pose proof (split_runs_no_LF false text) as Hall.
  rewrite List.Forall_forall in Hall.
  unfold trim. now apply trimEnd_no_LF, trimStart_no_LF, Hall.
Qed.

Lemma scene_names_clean_witness : clean "Louvre Museum".
Proof.
  apply (scene_names_clean two_lines). vm_compute. right. left.
Defined.

Lemma lines_clean (name : string) (rest : string) :
  any_unit is_LF name = false ->
  lines (name +:+ String LF rest) = name :: lines rest.
Proof.
  induction name as [|c n IH]; intros H.
  - reflexivity.
  - cbn in H. apply orb_false_iff in H as [Hc Hn].
    change (String c n +:+ String LF rest) with (String c (n +:+ String LF rest)).
    cbn [lines]. rewrite Hc, (IH Hn). reflexivity.
Qed.

Lemma lines_one (name : string) :
  any_unit is_LF name = false -> lines name = [name].
Proof.
  induction name as [|c n IH]; intros H; [reflexivity|].
  cbn in H. apply orb_false_iff in H as [Hc Hn].
  cbn [lines]. now rewrite Hc, (IH Hn).
Qed.

Lemma lines_join (name : string) (names : list string) :
  Forall clean (name :: names) -> lines (join_lines (name :: names)) = name :: names.
Proof.
  revert name. induction names as [|n names IH]; intros name Hall.
  - inversion Hall as [|? ? (_ & _ & Hlf) _]; subst. now apply lines_one.
  - inversion Hall as [|? ? (_ & _ & Hlf) Hrest]; subst.
    change (join_lines (name :: n :: names))
      with (name +:+ String LF (join_lines (n :: names))).
    rewrite lines_clean by exact Hlf. now rewrite IH.
Qed.

Lemma kept_clean (names : list string) :
  Forall clean names ->
  List.filter (fun line => negb (String.eqb line "")) (List.map trim names) = names.
Proof.
  induction 1 as [|n names (Ht & Htrim & _) _ IH]; [reflexivity|].
  cbn. rewrite Htrim, IH. rewrite <- Geocode.truthy_eqb, Ht. reflexivity.
Qed.

(** X2: a text made of clean names, one per line, is read back as
    exactly these names, in order. *)
Theorem scene_names_join (names : list string) :
  Forall clean names -> scene_names (join_lines names) = names.
Proof.
  intros Hall. rewrite Geocode.scene_names_spec. unfold spec_names.
  destruct names as [|name names]; [reflexivity|].
  rewrite lines_join by exact Hall. now apply kept_clean.
Qed.

Lemma scene_names_join_witness :
  scene_names (join_lines ["Eiffel Tower"; "Louvre Museum"; "Quai d'Orsay"])
  = ["Eiffel Tower"; "Louvre Museum"; "Quai d'Orsay"].
Proof.
  apply scene_names_join.
  repeat constructor.
Defined.

End NamesFacts.

(** ** More on the geocoding batch *)
Module GeocodeMore.
Import JSString JSNumber Planner Words.

Local Open Scope string_scope.
Local Open Scope list_scope.

(** *** The URL *)

Lemma any_unit_app (p : ascii -> bool) (s t : string) :
  any_unit p (s +:+ t) = any_unit p s || any_unit p t.
Proof.
  induction s as [|c s IH]; [reflexivity|].
  change (String c s +:+ t) with (String c (s +:+ t)). cbn.
  now rewrite IH, orb_assoc.
Qed.

Lemma encode_unit_plain (c : ascii) :
  any_unit (fun u => negb (plain u)) (encode_unit c) = false.
Proof. destruct c as [[] [] [] [] [] [] [] []]; reflexivity. Qed.

Lemma encodeURIComponent_plain (s : string) :
  any_unit (fun u => negb (plain u)) (encodeURIComponent s) = false.
Proof.
  induction s as [|c s IH]; [reflexivity|].
  cbn [encodeURIComponent]. now rewrite any_unit_app, encode_unit_plain, IH.
Qed.

(** X3: whatever the name, the value put after [q=] in the URL of a
    lookup is made of letters, digits, [- _ . ! ~ * ' ( )] and percent
    signs only; so it holds no [&], [=], [#], [?], [/], space or line
    feed, and the URL always ends with the two fixed parameters. *)
Theorem search_url_query (name : string) :
  search_url name
  = "https://nominatim.openstreetmap.org/search?q=" +:+ encodeURIComponent name
    +:+ "&format=json&limit=1"
  /\ any_unit (fun u => negb (plain u)) (encodeURIComponent name) = false
  /\ forall u : ascii,
      In u (list_ascii_of_string "&=#?/ " ++ [LF]) ->
      any_unit (Ascii.eqb u) (encodeURIComponent name) = false.
Proof.
  split; [reflexivity|]. split; [apply encodeURIComponent_plain|].
  intros u Hu.
  assert (Hplain : plain u = false).
  { cbn in Hu. repeat (destruct Hu as [<-|Hu]; [reflexivity|]). destruct Hu. }
  pose proof (encodeURIComponent_plain name) as H.
  induction (encodeURIComponent name) as [|c s IH]; [reflexivity|].
  cbn in H |- *. apply orb_false_iff in H as [Hc Hs].
  rewrite (IH Hs), orb_false_r.
  destruct (Ascii.eqb_spec u c) as [->|]; [|reflexivity].
  now rewrite Hplain in Hc.
Qed.

Lemma search_url_query_witness :
  any_unit (Ascii.eqb "&") (encodeURIComponent "Tom & Jerry") = false.
Proof.
  apply (proj2 (proj2 (search_url_query "Tom & Jerry"))). cbn. tauto.
Defined.

(** *** The map, the flag and the console *)

(** One turn of the loop leaves the map, the text and the Store alone and
    logs to the console exactly when it ends in the [catch] block. *)
Lemma lookup_console (net : network) (k : nat) (name : string)
    (st : Page) (ws : list Waypoint) :
  let st' := fst (lookup net k name (st, ws)) in
  map st' = map st /\ terrainEnabled st' = terrainEnabled st
  /\ sceneText st' = sceneText st /\ waypoints st' = waypoints st
  /\ exists logged,
      errors st' = errors st ++ logged
      /\ length logged = (if throws net k name then 1 else 0)%nat.
Proof.
  unfold lookup, throws.
  destruct (net k (search_url name)) as [message|[] [message|[|[|[lat lon|message] others]]]];
    cbn; repeat (split; [reflexivity|]).
  all: try (eexists [_]; split; reflexivity).
  all: exists []; now rewrite app_nil_r.
Qed.

Lemma lookups_console (net : network) (names : list string) :
  forall (k : nat) (st : Page) (ws : list Waypoint),
  let st' := fst (lookups net k names (st, ws)) in
  map st' = map st /\ terrainEnabled st' = terrainEnabled st
  /\ sceneText st' = sceneText st /\ waypoints st' = waypoints st
  /\ exists logged,
      errors st' = errors st ++ logged
      /\ length logged = length (thrown net k names).
Proof.
  induction names as [|n names IH]; intros k st ws; cbn [lookups thrown].
  - cbn. repeat (split; [reflexivity|]). exists []. now rewrite app_nil_r.
  - destruct (lookup net k n (st, ws)) as [st1 ws1] eqn:E1.
    pose proof (lookup_console net k n st ws) as H1. rewrite E1 in H1. cbn in H1.
    destruct H1 as (M1 & T1 & S1 & W1 & logged1 & E & L1).
    destruct (IH (S k) st1 ws1) as (M2 & T2 & S2 & W2 & logged2 & E' & L2).
    cbn zeta. rewrite M2, T2, S2, W2, M1, T1, S1, W1.
    repeat (split; [reflexivity|]).
    exists (logged1 ++ logged2). rewrite E', E, <- app_assoc. split; [reflexivity|].
    rewrite length_app, L1, L2. now destruct (throws net k n).
Qed.

(** The whole press of the button, with the map. *)
Lemma geocodeScenes_map (net : network) (st : Page) :
  scene_names (sceneText st) <> [] ->
  exists found notices logged,
    name <$> found = succeeded net 0 (scene_names (sceneText st))
    /\ waypoints (geocodeScenes net st)
       = match found with [] => waypoints st | _ :: _ => Some <$> found end
    /\ map (geocodeScenes net st)
       = match found, map st with
         | first :: _, Some m =>
             Some (fitBounds (bounds_of (bounding_box first found)) m)
         | _, _ => map st
         end
    /\ terrainEnabled (geocodeScenes net st) = terrainEnabled st
    /\ sceneText (geocodeScenes net st) = sceneText st
    /\ alerts (geocodeScenes net st) = alerts st ++ notices
    /\ length notices = length (failed net 0 (scene_names (sceneText st)))
    /\ errors (geocodeScenes net st) = errors st ++ logged
    /\ length logged = length (thrown net 0 (scene_names (sceneText st)))
    /\ (forall wp, wp ∈ found ->
          exists k url lat lon others,
            net k url = Response true (Parsed (Array (Place lat lon :: others)))
            /\ coord wp = (parseFloat_property lon, parseFloat_property lat)).
Proof.
  intros Hne. unfold geocodeScenes.
  destruct (scene_names (sceneText st)) as [|n rest] eqn:En; [now contradiction Hne|].
  destruct (Geocode.lookups_spec net (n :: rest) 0%nat st [])
    as (st1 & found & notices & E & _ & Al & Wp & Mp & Tx & Te & Hn & Hm & Hc & _).
  pose proof (lookups_console net (n :: rest) 0%nat st []) as Hcon.
  rewrite E in Hcon. cbn in Hcon.
  destruct Hcon as (_ & _ & _ & _ & logged & Er & Hlog).
  exists found, notices, logged. rewrite E. cbn [app].
  rewrite <- Al, <- Er, <- Wp, <- Mp, <- Tx, <- Te.
  split; [exact Hn|].
  apply Forall2_length in Hm.
  destruct found as [|first others];
    [|cbn [setWaypoints map]; destruct (map st1) eqn:Em;
      cbn [setWaypoints setMap map waypoints terrainEnabled sceneText alerts errors];
      rewrite ?Em];
    repeat (split; [first [reflexivity|assumption]|]); exact Hc.
Qed.

(** X4: a press of the geocode button never touches the terrain flag,
    the terrain of the map or the text; it calls [fitBounds] once when
    at least one name succeeds and there is a map, and not at all
    otherwise. *)
Theorem geocode_fits_once (net : network) (st : Page) :
  let names := scene_names (sceneText st) in
  let st' := geocodeScenes net st in
  terrainEnabled st' = terrainEnabled st
  /\ sceneText st' = sceneText st
  /\ map_terrain st' = map_terrain st
  /\ (map st = None -> map st' = None)
  /\ (forall m, map st = Some m ->
        exists m' calls,
          map st' = Some m' /\ fitted m' = fitted m ++ calls
          /\ length calls
             = match succeeded net 0 names with [] => 0%nat | _ :: _ => 1%nat end).
Proof.
  intros names st'. subst names st'.
  destruct (scene_names (sceneText st)) as [|n rest] eqn:En.
  - unfold geocodeScenes. rewrite En. cbn.
    repeat (split; [reflexivity|]). split; [tauto|].
    intros m Hm. exists m, []. now rewrite app_nil_r.
  - destruct (geocodeScenes_map net st)
      as (found & notices & logged & Hn & _ & Mp & Te & Tx & _); [now rewrite En|].
    rewrite En in Hn. rewrite <- Hn. unfold map_terrain. rewrite Mp.
    split; [exact Te|]. split; [exact Tx|].
    destruct found as [|first others].
    + split; [reflexivity|]. split; [tauto|].
      intros m Hm. exists m, []. now rewrite app_nil_r.
    + destruct (map st) as [m|]; (split; [reflexivity|]); (split; [easy|]).
      * intros m0 [= <-]. eexists _, [_]. now repeat split.
      * intros m0 [=].
Qed.

Lemma geocode_fits_once_witness :
  let st := setSceneText two_lines (mapCreated mounted) in
  exists m' calls,
    map (geocodeScenes finds_nothing st) = Some m'
    /\ fitted m' = fitted created_map ++ calls
    /\ length calls = 0%nat.
Proof.
  intros st.
  apply (proj2 (proj2 (proj2 (proj2 (geocode_fits_once finds_nothing st)))) created_map).
  reflexivity.
Defined.

Lemma no_nan_fmap (g : Waypoint -> number) (found : list Waypoint) :
  (forall wp, wp ∈ found -> is_nan (g wp) = false) -> no_nan (g <$> found).
Proof.
  intros H x Hx. apply list_elem_of_fmap in Hx as (wp & -> & Hwp). now apply H.
Qed.

(** X5: when no parsed coordinate of a batch is NaN, the box given to
    [fitBounds] holds every waypoint that the batch puts in the
    Store. *)
Theorem geocode_fit_holds_store (net : network) (st : Page) (m : MapWidget) :
  (forall k url lat lon others,
      net k url = Response true (Parsed (Array (Place lat lon :: others))) ->
      is_nan (parseFloat_property lon) = false
      /\ is_nan (parseFloat_property lat) = false) ->
  map st = Some m ->
  succeeded net 0 (scene_names (sceneText st)) <> [] ->
  exists m' b,
    map (geocodeScenes net st) = Some m'
    /\ fitted m' = fitted m ++ [b]
    /\ forall wp, Some wp ∈ waypoints (geocodeScenes net st) -> inside b (coord wp).
Proof.
  intros Hnum Hm Hsome.
  destruct (scene_names (sceneText st)) as [|n rest] eqn:En; [now contradiction Hsome|].
  destruct (geocodeScenes_map net st)
    as (found & notices & logged & Hn & Wp & Mp & _ & _ & _ & _ & _ & _ & Hc);
    [now rewrite En|].
  rewrite En in Hn. rewrite Hm in Mp.
  destruct found as [|first others]; [exfalso; apply Hsome; now rewrite <- Hn|].
  eexists _, _. split; [exact Mp|]. split; [reflexivity|].
  intros wp Hwp. rewrite Wp in Hwp.
  apply list_elem_of_fmap in Hwp as (w & [= ->] & Hw).
  assert (Hlon : no_nan (lon <$> first :: others)).
  { apply no_nan_fmap. intros w' Hw'.
    destruct (Hc w' Hw') as (k & url & la & lo & more & Hr & Hco).
    unfold lon. rewrite Hco. now apply (Hnum k url la lo more). }
  assert (Hlat : no_nan (lat <$> first :: others)).
  { apply no_nan_fmap. intros w' Hw'.
    destruct (Hc w' Hw') as (k & url & la & lo & more & Hr & Hco).
    unfold lat. rewrite Hco. now apply (Hnum k url la lo more). }
  unfold inside, bounds_of, bounding_box. cbn [southWest northEast fst snd].
  rewrite BoundingBox.widen_scan. cbn [minLon maxLon minLat maxLat].
  pose proof (BoundingBox.minimum_of_scan lon first others Hlon) as [_ H1].
  pose proof (BoundingBox.maximum_of_scan lon first others Hlon) as [_ H2].
  pose proof (BoundingBox.minimum_of_scan lat first others Hlat) as [_ H3].
  pose proof (BoundingBox.maximum_of_scan lat first others Hlat) as [_ H4].
  split; [|split; [|split]].
  - apply H1. now apply (list_elem_of_fmap_2 lon).
  - apply H2. now apply (list_elem_of_fmap_2 lon).
  - apply H3. now apply (list_elem_of_fmap_2 lat).
  - apply H4. now apply (list_elem_of_fmap_2 lat).
Qed.

Lemma geocode_fit_holds_store_witness :
  let st := setSceneText two_lines (mapCreated mounted) in
  exists m' b,
    map (geocodeScenes first_only st) = Some m'
    /\ fitted m' = fitted created_map ++ [b]
    /\ forall wp, Some wp ∈ waypoints (geocodeScenes first_only st) -> inside b (coord wp).
Proof.
  intros st. apply (geocode_fit_holds_store first_only st created_map).
  - intros k url lat lon others Hreply. unfold first_only in Hreply.
    destruct k; [|discriminate Hreply].
    injection Hreply as <- <- <-. split; reflexivity.
  - reflexivity.
  - discriminate.
Defined.

Lemma throws_fails (net : network) (k : nat) (name : string) :
  throws net k name = true -> succeeds net k name = false.
Proof.
  unfold throws, succeeds.
  destruct (net k (search_url name)) as [?|[] [?|[|[|[? ?|?] ?]]]];
    intros; reflexivity || discriminate.
Qed.

Lemma thrown_failed (net : network) (names : list string) :
  forall k, (length (thrown net k names) <= length (failed net k names))%nat.
Proof.
  induction names as [|n names IH]; intros k; cbn; [lia|].
  specialize (IH (S k)).
  destruct (throws net k n) eqn:Ht.
  - rewrite (throws_fails net k n Ht). cbn. lia.
  - destruct (succeeds net k n); cbn; lia.
Qed.

(** X6: a batch writes to the console once for every lookup that ends
    in the [catch] block (rejected request, unsuccessful status, body
    that cannot be parsed or read) and never for a place that is merely
    not found; every console message comes with a notice of its own. *)
Theorem geocode_console (net : network) (st : Page) :
  let names := scene_names (sceneText st) in
  let st' := geocodeScenes net st in
  exists logged notices,
    errors st' = errors st ++ logged
    /\ alerts st' = alerts st ++ notices
    /\ length logged = length (thrown net 0 names)
    /\ (length logged <= length notices)%nat
    /\ (thrown net 0 names = [] -> errors st' = errors st).
Proof.
  intros names st'. subst names st'.
  destruct (scene_names (sceneText st)) as [|n rest] eqn:En.
  - unfold geocodeScenes. rewrite En. cbn.
    exists [], [empty_notice]. rewrite app_nil_r. repeat split. cbn. lia.
  - destruct (geocodeScenes_map net st)
      as (found & notices & logged & _ & _ & _ & _ & _ & Al & Hf & Er & Hl & _);
      [now rewrite En|].
    rewrite En in Hf, Hl. exists logged, notices.
    split; [exact Er|]. split; [exact Al|]. split; [exact Hl|].
    split.
    + rewrite Hl, Hf. apply thrown_failed.
    + intros Hnone. rewrite Hnone in Hl. destruct logged; [|discriminate Hl].
      now rewrite Er, app_nil_r.
Qed.

Lemma geocode_console_witness :
  errors (geocodeScenes first_only (setSceneText two_lines mounted)) = [].
Proof.
  destruct (geocode_console first_only (setSceneText two_lines mounted))
    as (logged & notices & _ & _ & _ & _ & Hquiet).
  apply Hquiet. reflexivity.
Defined.

End GeocodeMore.

(** ** More on the Store: clicks, buttons, repeated moves *)
Module StoreMore.
Import JSString JSNumber Planner Listing.

Local Open Scope string_scope.
Local Open Scope list_scope.
Local Open Scope Z_scope.

(** X7: with a map, a sequence of clicks appends one waypoint per click,
    in click order, at the clicked coordinates, named "Waypoint" and the
    position it gets; what was in the Store stays in front. *)
Theorem clicks_append (places : list (number * number)) (st : Page) :
  is_Some (map st) ->
  waypoints (clicks places st)
  = waypoints st
    ++ imap (fun i place =>
               Some {| name := "Waypoint " +:+ pretty (length (waypoints st) + i + 1)%nat;
                       coord := place |}) places
  /\ length (waypoints (clicks places st))
     = (length (waypoints st) + length places)%nat.
Proof.
  intros Hmap.
  assert (H : waypoints (clicks places st)
              = waypoints st
                ++ imap (fun i place =>
                           Some {| name := "Waypoint "
                                           +:+ pretty (length (waypoints st) + i + 1)%nat;
                                   coord := place |}) places).
  { revert st Hmap. induction places as [|[lng lat] places IH]; intros st [m Hm].
    - cbn. now rewrite app_nil_r.
    - unfold clicks in *. cbn [fold_left fst snd].
      assert (Hclick : clickMap lng lat st
                = setWaypoints
                    (waypoints st
                     ++ [Some {| name := "Waypoint "
                                         +:+ pretty (length (waypoints st) + 1)%nat;
                                 coord := (lng, lat) |}]) st)
        by (unfold clickMap; now rewrite Hm).
      rewrite IH by (rewrite Hclick; now exists m).
      rewrite Hclick. cbn [waypoints setWaypoints imap].
      rewrite <- app_assoc. cbn [app]. rewrite Nat.add_0_r. do 2 f_equal.
      apply imap_ext. intros i place _. unfold compose.
      rewrite length_app. cbn [length].
      now replace (length (waypoints st) + 1 + i + 1)%nat
        with (length (waypoints st) + S i + 1)%nat by lia. }
  split; [exact H|]. rewrite H, length_app, length_imap. reflexivity.
Qed.

Lemma clicks_append_witness :
  length (waypoints (clicks [(of_Z 2, of_Z 48); (of_Z 13, of_Z 52)]
                            (setWaypoints sample (mapCreated mounted))))
  = (length sample + 2)%nat.
Proof.
  apply (clicks_append [(of_Z 2, of_Z 48); (of_Z 13, of_Z 52)]
           (setWaypoints sample (mapCreated mounted))).
  now exists created_map.
Defined.

Lemma guard_false (n : nat) (t : Z) :
  (t <? 0) || (t >=? Z.of_nat n) = false -> 0 <= t < Z.of_nat n.
Proof.
  intros H. apply orb_false_iff in H as [H1 H2].
  apply Z.ltb_ge in H1. rewrite Z.geb_leb in H2. apply Z.leb_gt in H2. lia.
Qed.

Lemma swap_same {A} (a : list (option A)) (i : Z) :
  0 <= i < Z.of_nat (length a) -> JSArray.swap a i i = a.
Proof.
  intros Hi. rewrite Reorder.swap_inside by assumption.
  rewrite list_insert_insert_eq. apply list_insert_id. now apply Reorder.get_inside.
Qed.

(** X8: a move by 0 never changes the page, whatever the index. *)
Theorem moveWaypoint_zero (st : Page) (index : Z) : moveWaypoint index 0 st = st.
Proof.
  unfold moveWaypoint. rewrite Z.add_0_r.
  destruct ((index <? 0) || (index >=? Z.of_nat (length (waypoints st)))) eqn:G;
    [reflexivity|].
  apply guard_false in G. rewrite swap_same by exact G. now destruct st.
Qed.

(** X9: moving a waypoint down is moving the one below it up. *)
Theorem moveWaypoint_down_is_up (st : Page) (index : Z) :
  0 <= index -> index + 1 < Z.of_nat (length (waypoints st)) ->
  moveWaypoint index 1 st = moveWaypoint (index + 1) (-1) st.
Proof.
  intros H0 H1. unfold moveWaypoint.
  replace (index + 1 + -1) with index by lia.
  rewrite !Reorder.target_inside by lia. f_equal.
  apply list_eq. intros k.
  rewrite !Reorder.swap_inside_lookup by lia.
  repeat case_decide; subst; try reflexivity; lia.
Qed.

Lemma moveWaypoint_down_is_up_witness :
  moveWaypoint 0 1 (setWaypoints sample mounted)
  = moveWaypoint (0 + 1) (-1) (setWaypoints sample mounted).
Proof.
  apply moveWaypoint_down_is_up; cbn; lia.
Defined.

(** Exchanging two neighbours. *)
Lemma swap_neighbours {A} (l1 l2 : list (option A)) (x y : option A) :
  JSArray.swap (l1 ++ x :: y :: l2) (Z.of_nat (length l1)) (Z.of_nat (length l1) + 1)
  = l1 ++ y :: x :: l2.
Proof.
  rewrite Reorder.swap_inside by (rewrite length_app; cbn [length]; lia).
  unfold JSArray.get.
  rewrite (proj2 (Z.ltb_ge _ 0)), (proj2 (Z.ltb_ge _ 0)) by lia.
  replace (Z.to_nat (Z.of_nat (length l1) + 1)) with (length l1 + 1)%nat by lia.
  rewrite Nat2Z.id.
  rewrite (lookup_app_r l1) by lia. rewrite (lookup_app_r l1) by lia.
  replace (length l1 + 1 - length l1)%nat with 1%nat by lia.
  rewrite Nat.sub_diag. cbn [lookup list_lookup default].
  replace (length l1) with (length l1 + 0)%nat at 2 by lia.
  rewrite insert_app_r. cbn. rewrite insert_app_r. reflexivity.
Qed.

(** X10: pressing the down button of a waypoint as many times as there
    are waypoints below it carries it to the end of the list and keeps
    the order of all the others. *)
Theorem carryDown_to_end (st : Page) (above below : list (option Waypoint))
    (moved : option Waypoint) :
  waypoints st = above ++ moved :: below ->
  waypoints (carryDown (length above) (length below) st) = above ++ below ++ [moved].
Proof.
  revert st above. induction below as [|next below IH]; intros st above Hst.
  - exact Hst.
  - cbn [carryDown length]. 
    assert (Hstep : waypoints (pressDown (length above) st)
                    = (above ++ [next]) ++ moved :: below).
    { unfold pressDown, moveWaypoint. rewrite Hst.
      rewrite Reorder.target_inside by (rewrite length_app; cbn [length]; lia).
      cbn [waypoints setWaypoints]. rewrite swap_neighbours.
      now rewrite <- app_assoc. }
    specialize (IH (pressDown (length above) st) (above ++ [next]) Hstep).
    rewrite length_app in IH. cbn [length] in IH.
    replace (length above + 1)%nat with (S (length above)) in IH by lia.
    rewrite IH, <- app_assoc. reflexivity.
Qed.

Lemma carryDown_to_end_witness :
  waypoints (carryDown 0 2 (setWaypoints sample mounted))
  = [Some {| name := "B"; coord := (of_Z 1, of_Z 1) |};
     Some {| name := "C"; coord := (of_Z 2, of_Z 2) |};
     Some {| name := "A"; coord := (of_Z 0, of_Z 0) |}].
Proof.
  apply (carryDown_to_end (setWaypoints sample mounted) []
           [Some {| name := "B"; coord := (of_Z 1, of_Z 1) |};
            Some {| name := "C"; coord := (of_Z 2, of_Z 2) |}]
           (Some {| name := "A"; coord := (of_Z 0, of_Z 0) |})).
  reflexivity.
Defined.

(** X11: in the list under the map a button is disabled exactly when
    the guard of [moveWaypoint] would absorb its move; an enabled button
    exchanges the waypoint of its row with the neighbour above or below.
    The rows show the names in Store order. *)
Theorem buttons_match_guard (st : Page) (ws : list Waypoint) (index : nat) (row : Row) :
  waypoints st = Some <$> ws ->
  rows ws !! index = Some row ->
  (title <$> rows ws = name <$> ws)
  /\ (upDisabled row = true -> pressUp index st = st)
  /\ (downDisabled row = true -> pressDown index st = st)
  /\ (upDisabled row = false ->
      waypoints (pressUp index st) !! (index - 1)%nat = waypoints st !! index
      /\ waypoints (pressUp index st) !! index = waypoints st !! (index - 1)%nat)
  /\ (downDisabled row = false ->
      waypoints (pressDown index st) !! (index + 1)%nat = waypoints st !! index
      /\ waypoints (pressDown index st) !! index = waypoints st !! (index + 1)%nat).
Proof.
  intros Hst Hrow. unfold rows in Hrow.
  apply list_lookup_imap_Some in Hrow as (wp & Hwp & ->).
  assert (Hlen : (index < length ws)%nat) by (apply lookup_lt_is_Some; now exists wp).
  assert (Hstore : length (waypoints st) = length ws) by (now rewrite Hst, length_fmap).
  cbn [upDisabled downDisabled].
  split; [|split; [|split; [|split]]].
  - apply list_eq. intros k. unfold rows.
    rewrite !list_lookup_fmap, list_lookup_imap. now destruct (ws !! k).
  - intros Hup. apply Z.eqb_eq in Hup.
    unfold pressUp, moveWaypoint. now rewrite Reorder.target_outside by lia.
  - intros Hdown. apply Z.eqb_eq in Hdown.
    unfold pressDown, moveWaypoint. now rewrite Reorder.target_outside by lia.
  - intros Hup. apply Z.eqb_neq in Hup.
    unfold pressUp, moveWaypoint. rewrite Reorder.target_inside by lia.
    cbn [waypoints setWaypoints].
    rewrite !Reorder.swap_inside_lookup by lia.
    replace (Z.to_nat (Z.of_nat index + -1)) with (index - 1)%nat by lia.
    rewrite Nat2Z.id. split; repeat case_decide; try reflexivity; lia.
  - intros Hdown. apply Z.eqb_neq in Hdown.
    unfold pressDown, moveWaypoint. rewrite Reorder.target_inside by lia.
    cbn [waypoints setWaypoints].
    rewrite !Reorder.swap_inside_lookup by lia.
    replace (Z.to_nat (Z.of_nat index + 1)) with (index + 1)%nat by lia.
    rewrite Nat2Z.id. split; repeat case_decide; try reflexivity; lia.
Qed.

Lemma buttons_match_guard_witness :
  pressUp 0 (setWaypoints sample mounted) = setWaypoints sample mounted.
Proof.
  refine (proj1 (proj2 (buttons_match_guard (setWaypoints sample mounted)
            [{| name := "A"; coord := (of_Z 0, of_Z 0) |};
             {| name := "B"; coord := (of_Z 1, of_Z 1) |};
             {| name := "C"; coord := (of_Z 2, of_Z 2) |}] 0
            {| ordinal := "1"; title := "A"; upDisabled := true; downDisabled := false |}
            _ _)) _); reflexivity.
Defined.

Lemma step_defined (st : Page) (ev : event) :
  from_controls st ev -> all_defined st -> all_defined (step st ev).
Proof.
  destruct ev as [|text|lng lat|net|index direction| |]; cbn [step from_controls];
    intros Hev Hst.
  - exact Hst.
  - exact Hst.
  - unfold clickMap. destruct (map st); [|exact Hst].
    intros slot Hslot. cbn in Hslot.
    apply elem_of_app in Hslot as [Hslot|Hslot]; [now apply Hst|].
    apply list_elem_of_singleton in Hslot. now subst.
  - destruct (scene_names (sceneText st)) as [|n rest] eqn:En.
    + unfold geocodeScenes. now rewrite En.
    + destruct (Geocode.geocodeScenes_spec net st)
        as (found & notices & Wp & _); [now rewrite En|].
      intros slot Hslot. rewrite Wp in Hslot. destruct found as [|first others].
      * now apply Hst.
      * apply list_elem_of_fmap in Hslot as (w & -> & _). discriminate.
  - destruct Hev as [Hindex _]. unfold moveWaypoint.
    destruct (_ || _) eqn:G; [exact Hst|]. apply guard_false in G.
    intros slot Hslot. cbn in Hslot.
    rewrite Reorder.swap_inside_Permutation in Hslot by assumption.
    now apply Hst.
  - intros slot Hslot. inversion Hslot.
  - unfold toggleTerrain. destruct (map st); exact Hst.
Qed.

(** X12: through the page's own controls (clicks, the geocode button,
    the buttons of the rows, clear, terrain) the Store never comes to
    hold an undefined element. *)
Theorem reachable_defined (st : Page) : reachable st -> all_defined st.
Proof.
  induction 1 as [|st ev _ IH Hev].
  - intros slot Hslot. inversion Hslot.
  - now apply step_defined.
Qed.

Lemma reachable_defined_witness :
  all_defined
    (step (step (step (step mounted MapCreated) (Clicked (of_Z 2) (of_Z 48)))
                (Clicked (of_Z 13) (of_Z 52)))
          (MovePressed 1 (-1))).
Proof.
  apply reachable_defined.
  repeat (apply reachable_step; [|cbn; try exact I; lia]).
  apply reachable_mounted.
Defined.

End StoreMore.

(** ** More on the terrain flag and on unmounting *)
Module TerrainMore.
Import JSString JSNumber Planner Mounting.

Local Open Scope string_scope.
Local Open Scope list_scope.

(** X13: after one press of the terrain button the flag and the map
    agree, whatever the page was; so from the second press on, two
    presses give the page back: three presses are one. *)
Theorem toggleTerrain_settles (st : Page) :
  terrain_consistent (toggleTerrain st)
  /\ toggleTerrain (toggleTerrain (toggleTerrain st)) = toggleTerrain st.
Proof.
  assert (H : terrain_consistent (toggleTerrain st)).
  { unfold terrain_consistent, toggleTerrain.
    destruct (map st) as [m|] eqn:Hm; [|now rewrite Hm].
    cbn. now destruct (terrainEnabled st). }
  split; [exact H|]. now apply Terrain.toggleTerrain_twice_consistent.
Qed.

Lemma geocodeScenes_terrain (net : network) (st : Page) :
  terrainEnabled (geocodeScenes net st) = terrainEnabled st
  /\ map_terrain (geocodeScenes net st) = map_terrain st.
Proof.
  destruct (scene_names (sceneText st)) as [|n rest] eqn:En.
  - unfold geocodeScenes. now rewrite En.
  - destruct (GeocodeMore.geocodeScenes_map net st)
      as (found & notices & logged & _ & _ & Mp & Te & _); [now rewrite En|].
    split; [exact Te|]. unfold map_terrain. rewrite Mp.
    destruct found; [reflexivity|]. now destruct (map st).
Qed.

Lemma consistent_by_terrain (st st' : Page) :
  terrainEnabled st' = terrainEnabled st -> map_terrain st' = map_terrain st ->
  terrain_consistent st -> terrain_consistent st'.
Proof.
  unfold terrain_consistent, map_terrain. intros -> Hmap.
  destruct (map st) as [m|], (map st') as [m'|]; cbn in Hmap; try discriminate; auto.
  injection Hmap as ->. auto.
Qed.

(** X14: once the flag and the map agree, nothing the user does makes
    them disagree again: clicks, typing, geocoding, moves, clearing and
    further presses all keep the agreement. *)
Theorem terrain_stays_consistent (st : Page) (events : list event) :
  terrain_consistent st ->
  Forall (fun ev => ev <> MapCreated) events ->
  terrain_consistent (fold_left step events st).
Proof.
  revert st. induction events as [|ev events IH]; intros st Hst Hevs; [exact Hst|].
  inversion Hevs as [|? ? Hev Hrest]; subst. cbn [fold_left]. apply IH; [|exact Hrest].
  destruct ev as [|text|lng lat|net|index direction| |]; cbn [step].
  - now contradiction Hev.
  - exact Hst.
  - unfold clickMap. destruct (map st) eqn:Hm; [|exact Hst].
    unfold terrain_consistent in *. cbn. now rewrite Hm in *.
  - destruct (geocodeScenes_terrain net st) as [Hf Hm].
    now apply (consistent_by_terrain st).
  - unfold moveWaypoint. now destruct (_ || _).
  - exact Hst.
  - apply toggleTerrain_settles.
Qed.

Lemma terrain_stays_consistent_witness :
  terrain_consistent
    (fold_left step [Clicked (of_Z 2) (of_Z 48); TerrainPressed; GeocodePressed first_only]
       (toggleTerrain (mapCreated mounted))).
Proof.
  apply terrain_stays_consistent.
  - reflexivity.
  - repeat constructor; discriminate.
Defined.





End TerrainMore.

(** ** More on the edge request filter *)
Module EdgeFilterMore.
Import JSString EdgeFilter Words.

Local Open Scope string_scope.

Lemma or_else_not_empty (a : option string) : or_else a None <> Some "".
Proof.
  rewrite EdgeFilterFacts.or_else_None. destruct a as [[|c s]|]; cbn; discriminate.
Qed.

(** X16: no field that [getClientInfo] returns is ever the empty
    string: an address or a place is a non-empty string or undefined. *)
Theorem getClientInfo_no_empty (req : NextRequest) :
  let info := ClientInfo.getClientInfo req in
  ClientInfo.ip info <> Some ""
  /\ ClientInfo.city (ClientInfo.geo info) <> Some ""
  /\ ClientInfo.country (ClientInfo.geo info) <> Some ""
  /\ ClientInfo.region (ClientInfo.geo info) <> Some ""
  /\ ClientInfo.latitude (ClientInfo.geo info) <> Some ""
  /\ ClientInfo.longitude (ClientInfo.geo info) <> Some "".
Proof. cbn. repeat split; apply or_else_not_empty. Qed.

Lemma trimStart_without (p : ascii -> bool) (s : string) :
  any_unit p s = false -> any_unit p (trimStart s) = false.
Proof.
  induction s as [|c s IH]; [reflexivity|]. cbn.
  intros H. apply orb_false_iff in H as [Hc Hs].
  destruct (is_white_space c); [now apply IH|]. cbn. now rewrite Hc, Hs.
Qed.

Lemma trimEnd_without (p : ascii -> bool) (s : string) :
  any_unit p s = false -> any_unit p (trimEnd s) = false.
Proof.
  induction s as [|c s IH]; [reflexivity|]. cbn.
  intros H. apply orb_false_iff in H as [Hc Hs].
  destruct (is_empty (trimEnd s) && is_white_space c); [reflexivity|].
  cbn. now rewrite Hc, IH.
Qed.

Lemma before_first_without (sep : ascii) (s : string) :
  any_unit (Ascii.eqb sep) (before_first sep s) = false.
Proof.
  induction s as [|c s IH]; [reflexivity|]. cbn.
  destruct (Ascii.eqb c sep) eqn:E; [reflexivity|].
  cbn. rewrite IH, orb_false_r. rewrite Ascii.eqb_sym. exact E.
Qed.

(** X17: an address taken from the forwarded-for header holds no comma
    and has no white space left at either end. *)
Theorem forwarded_address_shape (req : NextRequest) (list address : string) :
  headers_get req "x-forwarded-for" = Some list ->
  trim (before_first "," list) <> "" ->
  ClientInfo.ip (ClientInfo.getClientInfo req) = Some address ->
  any_unit (Ascii.eqb ",") address = false /\ trim address = address.
Proof.
  intros Hlist Hentry Hip.
  cbn [ClientInfo.getClientInfo ClientInfo.ip] in Hip.
  rewrite Hlist, EdgeFilterFacts.or_else_None in Hip. cbn in Hip.
  apply EdgeFilterFacts.truthy_not_empty in Hentry. rewrite !Hentry in Hip.
  injection Hip as <-. split.
  - unfold trim. apply trimEnd_without, trimStart_without, before_first_without.
  - apply NamesFacts.trim_idempotent.
Qed.

Lemma forwarded_address_shape_witness :
  any_unit (Ascii.eqb ",") "203.0.113.7" = false /\ trim "203.0.113.7" = "203.0.113.7".
Proof.
  apply (forwarded_address_shape via_proxies " 203.0.113.7 , 10.0.0.1").
  - reflexivity.
  - discriminate.
  - reflexivity.
Defined.

Lemma before_first_app (sep : ascii) (first others : string) :
  before_first sep (first +:+ String sep others) = before_first sep first.
Proof.
  induction first as [|c s IH].
  - change ("" +:+ String sep others) with (String sep others).
    cbn [before_first]. now rewrite Ascii.eqb_refl.
  - change (String c s +:+ String sep others) with (String c (s +:+ String sep others)).
    cbn [before_first]. now rewrite IH.
Qed.

(** X18: what follows the first comma of the forwarded-for header has
    no part in what [getClientInfo] returns. *)
Theorem later_entries_ignored (others_headers : gmap string string) (first others : string) :
  ClientInfo.getClientInfo
    {| headers := <["x-forwarded-for" := first +:+ String "," others]> others_headers |}
  = ClientInfo.getClientInfo
      {| headers := <["x-forwarded-for" := first]> others_headers |}.
Proof.
  unfold ClientInfo.getClientInfo, headers_get. cbn [headers].
  rewrite !lookup_insert_eq. cbn. rewrite before_first_app.
  now rewrite !lookup_insert_ne by discriminate.
Qed.

End EdgeFilterMore.

(** ** Drawing the waypoints *)
Module RenderFacts.
Import JSString JSNumber Planner Render.

Local Open Scope string_scope.
Local Open Scope list_scope.

Lemma route_remove_all (ms : list Marker) (c : Canvas) :
  route (fold_left remove ms c) = route c.
Proof. revert c. induction ms as [|m ms IH]; intros c; [reflexivity|]. cbn. now rewrite IH. Qed.

(** Removing the markers the page holds clears the map when the map
    holds no others. *)
Lemma remove_all (ms : list Marker) :
  forall c : Canvas,
    Forall (fun a => exists m, m ∈ ms /\ serial m = serial a) (attached c) ->
    attached (fold_left remove ms c) = [].
Proof.
  induction ms as [|m ms IH]; intros c Hall.
  - cbn. destruct (attached c) as [|a rest]; [reflexivity|].
    inversion Hall as [|? ? (m & Hm & _) _]; subst. inversion Hm.
  - cbn [fold_left]. apply IH. unfold remove. cbn [attached].
    rewrite List.Forall_forall in *. intros a Ha.
    apply List.filter_In in Ha as [Ha Hne].
    destruct (Hall a Ha) as (m' & Hm' & Hs).
    apply elem_of_cons in Hm' as [->|Hm']; [|now exists m'].
    rewrite Hs, Nat.eqb_refl in Hne. discriminate Hne.
Qed.

Lemma remove_tracked (ms : list Marker) (c : Canvas) :
  attached c = ms -> attached (fold_left remove ms c) = [].
Proof.
  intros H. apply remove_all. rewrite H. apply List.Forall_forall.
  intros a Ha. exists a. split; [now apply list_elem_of_In|reflexivity].
Qed.

(** The loop adds the same markers to the map and to [markersRef], at
    most one per waypoint, and exactly one per waypoint, numbered from
    the position, when the library takes every coordinate. *)
Lemma place_spec (accepts : number * number -> bool) (ws : list Waypoint) :
  forall (index : nat) (c : Canvas) (ref : list Marker) (count : nat),
  exists new count' done,
    place accepts index ws c ref count
    = ({| attached := attached c ++ new; route := route c |}, ref ++ new, count', done)
    /\ (length new <= length ws)%nat
    /\ ((forall wp, wp ∈ ws -> accepts (coord wp) = true) ->
        done = true
        /\ text <$> new = imap (fun i _ => pretty (index + i + 1)%nat) ws
        /\ lngLat <$> new = coord <$> ws).
Proof.
  induction ws as [|wp ws IH]; intros index c ref count.
  - exists [], count, true. cbn. rewrite !app_nil_r. destruct c. now repeat split.
  - cbn [place]. destruct (accepts (coord wp)) eqn:Hacc.
    + destruct (IH (S index)
                  {| attached := attached c
                                 ++ [{| serial := count; text := pretty (index + 1)%nat;
                                        lngLat := coord wp |}];
                     route := route c |}
                  (ref ++ [{| serial := count; text := pretty (index + 1)%nat;
                              lngLat := coord wp |}]) (S count))
        as (new & count' & done & E & Hlen & Hall).
      exists ({| serial := count; text := pretty (index + 1)%nat; lngLat := coord wp |}
              :: new), count', done.
      rewrite E. cbn [attached route]. rewrite <- !app_assoc. cbn [app length].
      split; [reflexivity|]. split; [lia|].
      intros Hacc'. destruct Hall as (-> & Ht & Hl); [intros w Hw; apply Hacc'; now right|].
      split; [reflexivity|]. cbn [fmap list_fmap imap text lngLat].
      rewrite Nat.add_0_r. split; [|now f_equal].
      f_equal. change (list_fmap Marker string text new) with (text <$> new).
      rewrite Ht. apply imap_ext. intros i w _. unfold compose. do 2 f_equal. lia.
    + exists [], (S count), false. rewrite !app_nil_r. destruct c. cbn.
      split; [reflexivity|]. split; [lia|].
      intros Hacc'. rewrite Hacc' in Hacc by left. discriminate Hacc.
Qed.

Lemma attached_setData (coords : list (number * number)) (c : Canvas) :
  attached (setData coords c) = attached c.
Proof. unfold setData. now destruct (route c). Qed.

Lemma route_setData (coords : list (number * number)) (c : Canvas) :
  route (setData coords c) = match route c with Some _ => Some coords | None => None end.
Proof. unfold setData. destruct (route c) eqn:E; [reflexivity|exact E]. Qed.

(** X19: on a map whose markers are all held by the page, with the
    library loaded and every coordinate taken, the effect leaves on the
    map exactly one marker per waypoint, in Store order, numbered from 1
    and set at the waypoint's coordinate; none of the earlier markers is
    left.  The route line gets the coordinates in Store order once its
    source exists, and stays absent before. *)
Theorem renderEffect_redraws (accepts : number * number -> bool)
    (ws : list Waypoint) (v : View) (c : Canvas) :
  canvas v = Some c ->
  maplibre v = true ->
  tracked v ->
  (forall wp, wp ∈ ws -> accepts (coord wp) = true) ->
  exists c',
    canvas (fst (renderEffect accepts ws v)) = Some c'
    /\ snd (renderEffect accepts ws v) = true
    /\ attached c' = markersRef (fst (renderEffect accepts ws v))
    /\ text <$> attached c' = imap (fun i _ => pretty (i + 1)%nat) ws
    /\ lngLat <$> attached c' = coord <$> ws
    /\ length (attached c') = length ws
    /\ route c' = match route c with Some _ => Some (coord <$> ws) | None => None end.
Proof.
  intros Hc Hlib Htracked Hacc. unfold tracked in Htracked. rewrite Hc in Htracked.
  unfold renderEffect. rewrite Hc, Hlib.
  destruct (place_spec accepts ws 0 (fold_left remove (markersRef v) c) [] (made v))
    as (new & count' & done & E & _ & Hall).
  destruct (Hall Hacc) as (-> & Ht & Hl). rewrite E. cbn [fst snd canvas markersRef].
  rewrite (remove_tracked _ _ Htracked), route_remove_all. cbn [app].
  eexists. split; [reflexivity|]. split; [reflexivity|].
  rewrite attached_setData, route_setData. cbn [attached route].
  split; [reflexivity|]. split; [exact Ht|]. split; [exact Hl|].
  split; [|reflexivity].
  rewrite <- (length_fmap lngLat), Hl. apply length_fmap.
Qed.

Lemma renderEffect_redraws_witness :
  let everything (_ : number * number) := true in
  let ws := [{| name := "A"; coord := (of_Z 0, of_Z 0) |};
             {| name := "B"; coord := (of_Z 1, of_Z 1) |}] in
  exists c',
    canvas (fst (renderEffect everything ws (loaded (imported initial)))) = Some c'
    /\ snd (renderEffect everything ws (loaded (imported initial))) = true
    /\ attached c' = markersRef (fst (renderEffect everything ws (loaded (imported initial))))
    /\ text <$> attached c' = imap (fun i _ => pretty (i + 1)%nat) ws
    /\ lngLat <$> attached c' = coord <$> ws
    /\ length (attached c') = length ws
    /\ route c' = Some (coord <$> ws).
Proof.
  intros everything ws.
  apply (renderEffect_redraws everything ws (loaded (imported initial))
           {| attached := []; route := Some [] |}); try reflexivity.
Defined.

Lemma renderEffect_tracked (accepts : number * number -> bool)
    (ws : list Waypoint) (v : View) :
  tracked v ->
  tracked (fst (renderEffect accepts ws v))
  /\ forall c', canvas (fst (renderEffect accepts ws v)) = Some c' ->
                (length (attached c') <= length ws)%nat.
Proof.
  unfold tracked at 1. unfold renderEffect.
  destruct (canvas v) as [c|] eqn:Hc;
    [|intros _; unfold tracked; cbn [fst]; rewrite Hc; split; [exact I|intros c' [=]]].
  intros Htracked. destruct (maplibre v).
  - destruct (place_spec accepts ws 0 (fold_left remove (markersRef v) c) [] (made v))
      as (new & count' & done & E & Hlen & _).
    rewrite E. rewrite (remove_tracked _ _ Htracked). cbn [app].
    destruct done; cbn [fst]; unfold tracked; cbn [canvas markersRef].
    + rewrite attached_setData. cbn. split; [reflexivity|].
      intros c' [= <-]. now rewrite attached_setData.
    + cbn. split; [reflexivity|]. now intros c' [= <-].
  - cbn [fst]. unfold tracked. cbn [canvas markersRef].
    rewrite attached_setData, (remove_tracked _ _ Htracked).
    split; [reflexivity|]. intros c' [= <-].
    rewrite attached_setData, (remove_tracked _ _ Htracked). cbn. lia.
Qed.

Lemma apply_tracked (accepts : number * number -> bool) (v : View) (ch : change) :
  tracked v -> tracked (apply accepts v ch).
Proof.
  destruct ch as [|ws]; cbn [apply]; intros H.
  - unfold loaded, tracked in *. destruct (canvas v) as [c|] eqn:Hc; cbn; now rewrite ?Hc.
  - now apply renderEffect_tracked.
Qed.

(** X20: from the creation of the map on, whatever is drawn and whether
    or not the library refuses a coordinate on the way, every marker on
    the map is one the page still holds, so the next pass removes it;
    and after a pass the map never shows more markers than the Store
    has waypoints. *)
Theorem no_orphan_markers (accepts : number * number -> bool)
    (changes : list change) (ws : list Waypoint) :
  let before := fold_left (apply accepts) changes (imported initial) in
  let after := fst (renderEffect accepts ws before) in
  tracked before /\ tracked after
  /\ forall c, canvas after = Some c -> (length (attached c) <= length ws)%nat.
Proof.
  intros before after.
  assert (Hbefore : tracked before).
  { subst before. generalize (imported initial), (eq_refl : tracked (imported initial)).
    induction changes as [|ch changes IH]; intros v Hv; [exact Hv|].
    cbn [fold_left]. apply IH. now apply apply_tracked. }
  split; [exact Hbefore|]. now apply renderEffect_tracked.
Qed.

Lemma no_orphan_markers_witness :
  let nothing (_ : number * number) := false in
  (length (attached {| attached := []; route := Some [] |}) <= 1)%nat.
Proof.
  intros nothing.
  apply (proj2 (proj2 (no_orphan_markers nothing
                         [Loaded; Rendered [{| name := "A"; coord := (NaN, NaN) |}]]
                         [{| name := "A"; coord := (NaN, NaN) |}]))).
  reflexivity.
Defined.

End RenderFacts.

(** ** The names and the order of the lookups *)
Module Sequence.
Import JSString JSNumber Planner Words.

Local Open Scope string_scope.
Local Open Scope list_scope.

(** *** Trimming, against the white space listed by code unit *)

Lemma white_space_blank (c : ascii) : is_white_space c = blank c.
Proof. destruct c as [[] [] [] [] [] [] [] []]; reflexivity. Qed.

Lemma all_blank_app (s t : string) : all_blank (s +:+ t) = all_blank s && all_blank t.
Proof.
  induction s as [|c s IH]; [reflexivity|].
  change (String c s +:+ t) with (String c (s +:+ t)). cbn.
  now rewrite IH, andb_assoc.
Qed.

Lemma trimStart_parts (s : string) :
  exists before,
    s = before +:+ trimStart s /\ all_blank before = true
    /\ match trimStart s with
       | EmptyString => True
       | String c _ => blank c = false
       end.
Proof.
  induction s as [|c s (before & Hs & Hb & Hh)].
  - now exists "".
  - cbn [trimStart]. destruct (is_white_space c) eqn:Hc.
    + exists (String c before).
      change (String c before +:+ trimStart s) with (String c (before +:+ trimStart s)).
      rewrite <- Hs. cbn [all_blank]. rewrite <- white_space_blank, Hc, Hb.
      now repeat split.
    + exists "". rewrite <- white_space_blank. now repeat split.
Qed.

Lemma trimEnd_parts (s : string) :
  exists after,
    s = trimEnd s +:+ after /\ all_blank after = true
    /\ match last_unit (trimEnd s) with
       | None => trimEnd s = ""
       | Some d => blank d = false
       end.
Proof.
  induction s as [|c s (after & Hs & Ha & Hl)].
  - now exists "".
  - cbn [trimEnd]. destruct (trimEnd s) as [|e t] eqn:Et.
    + cbn [is_empty andb]. destruct (is_white_space c) eqn:Hc.
      * exists (String c after). cbn [all_blank last_unit].
        rewrite <- white_space_blank, Hc, Ha.
        split; [|now split]. rewrite Hs at 1. reflexivity.
      * exists after. cbn [last_unit]. rewrite <- white_space_blank, Hc.
        split; [|now split]. rewrite Hs at 1. reflexivity.
    + cbn [is_empty andb]. exists after. split; [|split; [exact Ha|]].
      * change (String c (String e t) +:+ after) with (String c (String e t +:+ after)).
        now rewrite <- Hs.
      * cbn [last_unit] in Hl |- *. destruct (last_unit t); exact Hl.
Qed.

(** A line keeps a name exactly when it has ink, and the name is then
    the line stripped of the white space at its ends. *)
Lemma trim_stripped (line : string) :
  truthy (trim line) = has_ink line
  /\ (has_ink line = true -> stripped line (trim line)).
Proof.
  unfold trim, has_ink.
  destruct (trimStart_parts line) as (before & Hline & Hbefore & Hhead).
  destruct (trimEnd_parts (trimStart line)) as (after & Hmid & Hafter & Hlast).
  assert (Hblank : all_blank line
                   = all_blank (trimEnd (trimStart line))).
  { rewrite Hline at 1. rewrite all_blank_app, Hbefore. cbn [andb].
    rewrite Hmid at 1. now rewrite all_blank_app, Hafter, andb_true_r. }
  destruct (trimStart line) as [|c t] eqn:Et.
  - cbn in *. rewrite Hblank. split; [reflexivity|discriminate].
  - rewrite NamesFacts.trimEnd_keeps_head in *
      by (rewrite white_space_blank; exact Hhead).
    rewrite Hblank. cbn [all_blank truthy is_empty negb]. rewrite Hhead. cbn [andb negb].
    split; [reflexivity|]. intros _. split; [|split].
    + exists before, after. split; [|now split].
      rewrite Hline at 1. now rewrite Hmid at 1.
    + now exists c, (trimEnd t).
    + destruct (last_unit (String c (trimEnd t))) as [d|]; [now exists d|discriminate].
Qed.

Lemma stripped_lines (pieces : list string) :
  Forall2 stripped (List.filter has_ink pieces)
    (List.filter (fun line => negb (String.eqb line "")) (List.map trim pieces)).
Proof.
  induction pieces as [|line pieces IH]; [constructor|].
  cbn [List.filter List.map]. rewrite <- Geocode.truthy_eqb.
  destruct (trim_stripped line) as [-> Hs].
  destruct (has_ink line); [|exact IH]. constructor; [now apply Hs|exact IH].
Qed.

(** *** The process *)

Lemma lookup_settle (net : network) (k : nat) (name : string) (acc : Page * list Waypoint) :
  lookup net k name acc
  = Async.settle name (net k (search_url name)) (fetch (search_url name) (fst acc), snd acc).
Proof.
  destruct acc as [st ws]. unfold lookup, Async.settle. cbn [fst snd].
  now destruct (net k (search_url name)) as [?|[] [?|[|[|[? ?|?] ?]]]].
Qed.

Lemma perform_turns (net : network) (names : list string) :
  forall (acc : Page * list Waypoint) (sent : list string) (trace : list Async.io),
    Async.perform net (Async.turns names acc) sent trace
    = Some (Async.conclude (lookups net (length sent) names acc),
            trace ++ Async.one_by_one net (length sent) names).
Proof.
  induction names as [|n names IH]; intros acc sent trace.
  - cbn. now rewrite app_nil_r.
  - cbn [Async.turns Async.perform lookups Async.one_by_one].
    rewrite (list_lookup_middle sent [] (search_url n) (length sent) eq_refl).
    rewrite IH, length_app. cbn [length].
    replace (length sent + 1)%nat with (S (length sent)) by lia.
    rewrite <- lookup_settle, <- !app_assoc. reflexivity.
Qed.

Lemma geocodeScenes_conclude (net : network) (st : Page) (n : string) (rest : list string) :
  scene_names (sceneText st) = n :: rest ->
  geocodeScenes net st = Async.conclude (lookups net 0 (n :: rest) (st, [])).
Proof.
  intros En. unfold geocodeScenes, Async.conclude. rewrite En.
  now destruct (lookups net 0 (n :: rest) (st, [])) as [st1 [|first others]].
Qed.

Lemma perform_geocodeScenes (net : network) (st : Page) :
  Async.perform net (Async.geocodeScenes st) [] []
  = Some (geocodeScenes net st, Async.one_by_one net 0 (scene_names (sceneText st))).
Proof.
  unfold Async.geocodeScenes.
  destruct (scene_names (sceneText st)) as [|n rest] eqn:En.
  - cbn. unfold geocodeScenes. now rewrite En.
  - rewrite perform_turns. cbn [length app].
    now rewrite (geocodeScenes_conclude net st n rest En).
Qed.

Lemma one_by_one_in_turn (net : network) (names : list string) :
  forall k, Async.in_turn None k (Async.one_by_one net k names) = true.
Proof.
  induction names as [|n names IH]; intros k; [reflexivity|].
  cbn. now rewrite Nat.eqb_refl, IH.
Qed.

(** Sending two requests before waiting for either is not sequential:
    the order of the requests alone does not make a trace so. *)
Lemma both_at_once_not_sequential (net : network) (url1 url2 : string) (st : Page) :
  exists trace,
    Async.perform net (Async.both_at_once url1 url2 st) [] [] = Some (st, trace)
    /\ ~ Async.sequential trace.
Proof.
  eexists. split; [reflexivity|]. unfold Async.sequential. cbn. discriminate.
Qed.

(** C7: the names of a batch are the lines of the text without the
    white space at their ends, the lines that are nothing but white
    space being dropped.  The batch looks them up strictly one after the
    other in input order: each request is sent only when the reply to
    the one before has been received, and the page it ends with is the
    one of [geocodeScenes].  The text "Eiffel Tower", blank line,
    "Louvre Museum" makes exactly two requests, for Eiffel Tower then
    for Louvre Museum. *)
Theorem geocode_names_and_requests :
  (forall text : string,
      scene_names text = spec_names text
      /\ Forall2 stripped (List.filter has_ink (lines text)) (scene_names text))
  /\ (forall (net : network) (st : Page),
        Async.perform net (Async.geocodeScenes st) [] []
        = Some (geocodeScenes net st,
                Async.one_by_one net 0 (scene_names (sceneText st)))
        /\ Async.sequential (Async.one_by_one net 0 (scene_names (sceneText st)))
        /\ requests (geocodeScenes net st)
           = requests st ++ (search_url <$> scene_names (sceneText st)))
  /\ (forall (net : network) (st : Page),
        sceneText st = two_lines ->
        let url1 :=
          "https://nominatim.openstreetmap.org/search?q=Eiffel%20Tower&format=json&limit=1" in
        let url2 :=
          "https://nominatim.openstreetmap.org/search?q=Louvre%20Museum&format=json&limit=1" in
        Async.perform net (Async.geocodeScenes st) [] []
        = Some (geocodeScenes net st,
                [Async.Sent url1; Async.Received 0 (net 0%nat url1);
                 Async.Sent url2; Async.Received 1 (net 1%nat url2)])
        /\ requests (geocodeScenes net st) = requests st ++ [url1; url2]).
Proof.
  assert (Hreq : forall net st,
             requests (geocodeScenes net st)
             = requests st ++ (search_url <$> scene_names (sceneText st))).
  { intros net st. destruct (scene_names (sceneText st)) as [|n rest] eqn:En.
    - unfold geocodeScenes. rewrite En. cbn. now rewrite app_nil_r.
    - destruct (Geocode.geocodeScenes_spec net st) as (found & notices & _ & Rq & _).
      + now rewrite En.
      + now rewrite Rq, En. }
  split; [|split].
  - intros text. split; [apply Geocode.scene_names_spec|].
    rewrite Geocode.scene_names_spec. apply stripped_lines.
  - intros net st. split; [apply perform_geocodeScenes|].
    split; [apply one_by_one_in_turn|apply Hreq].
  - intros net st Htext url1 url2. rewrite perform_geocodeScenes, Hreq, Htext.
    split; reflexivity.
Qed.

Lemma geocode_names_and_requests_witness :
  requests (geocodeScenes finds_nothing (setSceneText two_lines mounted))
  = ["https://nominatim.openstreetmap.org/search?q=Eiffel%20Tower&format=json&limit=1";
     "https://nominatim.openstreetmap.org/search?q=Louvre%20Museum&format=json&limit=1"].
Proof.
  apply (proj2 (proj2 geocode_names_and_requests) finds_nothing
           (setSceneText two_lines mounted)).
  reflexivity.
Defined.

End Sequence.
